(** * Region maps, store views and coordinator glue of the replication core

    A shallow embedding of [protocol_api.hpp] (region algebra helpers,
    [region_map_t], [store_view_t], [store_subview_t]), of
    [clustering/master.hpp] ([on_read], [on_write]), of
    [clustering/registrant.hpp] and of [concurrency/cond_var.cc]
    ([one_waiter_cond_t]), followed by the properties proved about them.

    Conventions of the embedding:
    - a C++ function that may throw, or that runs an [rassert] (checked in
      debug builds), returns in the [exc] monad below;
    - [std::vector] is [list], traversed front to back, [push_back] appends;
    - the FIFO tokens and interruptor signals of the store-view functions
      only order or cancel calls; they carry no data the functions below
      compute with and are left out of the signatures. *)

From stdpp Require Import base option list gmap strings.
From Stdlib Require Import Ascii.
From stdpp Require Import sorting.

#[local] Set Warnings "-clear-no-such-hyp".

(** ** Exceptions *)

(** The exception classes that occur in the embedded sources.
    [assertion_failure] is the outcome of a failed [rassert]. *)
Inductive exception : Type :=
  | bad_region_exc_t
  | bad_join_exc_t
  | assertion_failure
  | interrupted_exc_t
  | resource_lost_exc_t
  | mirror_lost_exc_t
  | insufficient_mirrors_exc_t.

Inductive exc (A : Type) : Type :=
  | Ok (a : A)
  | Throw (e : exception).
Arguments Ok {A} a.
Arguments Throw {A} e.

#[global] Instance exc_ret : MRet exc := λ A a, Ok a.
#[global] Instance exc_bind : MBind exc := λ A B f m,
  match m with
  | Ok a => f a
  | Throw e => Throw e
  end.

Definition rassert (cond : bool) : exc unit :=
  if cond then Ok tt else Throw assertion_failure.

Definition is_Ok {A} (m : exc A) : Prop := ∃ a, m = Ok a.

(** ** The protocol's region algebra *)

(** Modelled from the spec: [protocol_t] itself is never instantiated in
    [protocol_api.hpp], and the region functions of a protocol
    ([region_join], [region_intersection], [region_subtract_many],
    [region_is_superset], [region_t::empty], [operator==]) are declared by
    each protocol, outside these sources.  The spec gives their signatures
    and says that a region is a decidable subset of the keyspace;
    [region_contains] is that subset. *)
Class protocol_t : Type := {
  key_t : Type;
  region_t : Type;
  region_contains : region_t → key_t → bool;
  region_empty : region_t;
  region_eqb : region_t → region_t → bool;
  region_is_superset : region_t → region_t → bool;
  region_intersection : region_t → region_t → region_t;
  region_join : list region_t → exc region_t;
  region_subtract_many : region_t → list region_t → list region_t;
}.

Section region_helpers.
Context {P : protocol_t}.

(** [protocol_api.hpp], default implementations. *)
Definition region_is_empty (r : region_t) : bool :=
  region_is_superset region_empty r.

Definition region_overlaps (r1 r2 : region_t) : bool :=
  negb (region_is_empty (region_intersection r1 r2)).

(** No two regions of the vector overlap (what [bad_join_exc_t] reports
    the failure of). *)
Fixpoint regions_disjoint (rs : list region_t) : bool :=
  match rs with
  | [] => true
  | r :: rest =>
      forallb (λ r', negb (region_overlaps r r')) rest && regions_disjoint rest
  end.

(** Some region of the vector contains the key. *)
Definition covers (rs : list region_t) (k : key_t) : bool :=
  existsb (λ r, region_contains r k) rs.

(** How many regions of the vector contain the key. *)
Definition multiplicity (rs : list region_t) (k : key_t) : nat :=
  length (filter (λ r, region_contains r k = true) rs).
End region_helpers.

(** Modelled from the spec: the laws of the region algebra.  Regions are
    compared, intersected and subtracted as sets of keys; [region_join]
    fails with [bad_join_exc_t] when its inputs overlap, with
    [bad_region_exc_t] when their union cannot be expressed as a region, and
    otherwise returns the union; [region_subtract_many] returns disjoint
    pieces which together are the difference. *)
Class protocol_laws (P : protocol_t) : Prop := {
  region_empty_spec k :
    region_contains region_empty k = false;
  region_eqb_spec a b :
    region_eqb a b = true ↔ ∀ k, region_contains a k = region_contains b k;
  region_is_superset_spec a b :
    region_is_superset a b = true ↔
    ∀ k, region_contains b k = true → region_contains a k = true;
  region_not_superset a b :
    region_is_superset a b = false →
    ∃ k, region_contains b k = true ∧ region_contains a k = false;
  region_intersection_spec a b k :
    region_contains (region_intersection a b) k =
    region_contains a k && region_contains b k;
  region_join_overlap rs :
    regions_disjoint rs = false → region_join rs = Throw bad_join_exc_t;
  region_join_spec rs u :
    region_join rs = Ok u → ∀ k, region_contains u k = covers rs k;
  region_join_expressible rs u :
    regions_disjoint rs = true →
    (∀ k, region_contains u k = covers rs k) →
    is_Ok (region_join rs);
  region_join_throws rs e :
    region_join rs = Throw e → e = bad_join_exc_t ∨ e = bad_region_exc_t;
  region_subtract_many_spec a bs k :
    covers (region_subtract_many a bs) k =
    region_contains a k && negb (covers bs k);
  region_subtract_many_disjoint a bs :
    regions_disjoint (region_subtract_many a bs) = true;
}.

(** ** [region_map_t] *)

Section region_map.
Context {P : protocol_t} {value_t : Type} `{!EqDecision value_t}.

(** A [region_map_t] is its [internal_vec_t], the vector of
    [(region, value)] pairs. *)
#[local] Abbreviation region_map_t := (list (region_t * value_t)).

Definition get_domain (m : region_map_t) : exc region_t :=
  region_join (m.*1).

(** The constructor from one pair. *)
Definition region_map_t_single (r : region_t) (v : value_t) : region_map_t :=
  [(r, v)].

(** The constructor from an iterator range: [DEBUG_ONLY(get_domain())]
    runs the join for its exceptions and drops the result. *)
Definition region_map_t_range (pairs : list (region_t * value_t))
  : exc region_map_t :=
  _ ← get_domain pairs; Ok pairs.

(** The loop of [mask]. *)
Fixpoint masked_pairs (region : region_t) (regions_and_values : region_map_t)
  : list (region_t * value_t) :=
  match regions_and_values with
  | [] => []
  | (r, v) :: rest =>
      let ixn := region_intersection r region in
      if negb (region_is_empty ixn)
      then (ixn, v) :: masked_pairs region rest
      else masked_pairs region rest
  end.

Definition mask (region : region_t) (m : region_map_t) : exc region_map_t :=
  region_map_t_range (masked_pairs region m).

(** The outer loop of [update]: for every old pair, the pieces of the old
    region that the overlay leaves, each with the old value. *)
Fixpoint updated_pairs (old_pairs : region_map_t)
    (overlay_regions : list region_t) : list (region_t * value_t) :=
  match old_pairs with
  | [] => []
  | (old, v) :: rest =>
      ((λ j, (j, v)) <$> region_subtract_many old overlay_regions)
      ++ updated_pairs rest overlay_regions
  end.

(** [update]: the [rassert] on the domains, then the old pieces followed by
    a copy of the new pairs.  (C++ leaves the order in which the two
    [get_domain] calls of the assertion run unspecified; the receiver's
    runs first here.) *)
Definition update (m new_values : region_map_t) : exc region_map_t :=
  d ← get_domain m;
  dn ← get_domain new_values;
  _ ← rassert (region_is_superset d dn);
  Ok (updated_pairs m (new_values.*1) ++ new_values).

Definition set (r : region_t) (v : value_t) (m : region_map_t)
  : exc region_map_t :=
  update m (region_map_t_single r v).

(** The inner loop of [operator==]: false at the first slice whose value
    differs. *)
Fixpoint slices_all_equal (v : value_t) (r : region_map_t) : bool :=
  match r with
  | [] => true
  | (_, vj) :: rest =>
      if bool_decide (vj ≠ v) then false else slices_all_equal v rest
  end.

(** The outer loop of [operator==], over the pairs of the left operand. *)
Fixpoint eq_loop (left_pairs : region_map_t) (right : region_map_t)
  : exc bool :=
  match left_pairs with
  | [] => Ok true
  | (ri, vi) :: rest =>
      r ← mask ri right;
      if slices_all_equal vi r then eq_loop rest right else Ok false
  end.

(** [operator==] on region maps. *)
Definition region_map_eq (left right : region_map_t) : exc bool :=
  dl ← get_domain left;
  dr ← get_domain right;
  if negb (region_eqb dl dr) then Ok false else eq_loop left right.

(** [operator!=]. *)
Definition region_map_neq (left right : region_map_t) : exc bool :=
  b ← region_map_eq left right; Ok (negb b).

(** The piecewise-constant function a region map stands for: the value of
    the first pair whose region holds the key. *)
Fixpoint value_at (m : region_map_t) (k : key_t) : option value_t :=
  match m with
  | [] => None
  | (r, v) :: rest => if region_contains r k then Some v else value_at rest k
  end.

(** Every pair of distinct entries has an empty intersection. *)
Definition pairwise_disjoint (m : region_map_t) : Prop :=
  ∀ i j ri vi rj vj,
    i ≠ j → m !! i = Some (ri, vi) → m !! j = Some (rj, vj) →
    region_is_empty (region_intersection ri rj) = true.
End region_map.

Abbreviation region_map_t P value_t := (list (@region_t P * value_t)).

Section region_map_transform.
Context {P : protocol_t} {old_t new_t : Type}.

Definition region_map_transform (original : region_map_t P old_t)
    (callable : old_t → new_t) : exc (region_map_t P new_t) :=
  region_map_t_range ((λ it, (it.1, callable it.2)) <$> original).
End region_map_transform.

(** ** The dummy protocol *)

Module dummy_protocol_t.
(** [dummy_protocol_t::region_t]: the struct whose field [keys] the JSON
    adapter reads, a [std::set<std::string>]. *)
Record region_t : Type := mk_region { keys : gset string }.

(** Modelled from the spec: the dummy protocol's region functions are not
    among the sources (only the adapter that reads [keys] is).  They are
    the set operations on [keys]; [region_join] inserts the keys of each
    region in turn and fails with [bad_join_exc_t] at a key it has
    already seen; [region_subtract_many] returns the one region that is
    left. *)
Definition region_contains (r : region_t) (k : string) : bool :=
  bool_decide (k ∈ keys r).

Definition empty : region_t := mk_region ∅.

Definition region_eqb (a b : region_t) : bool :=
  bool_decide (keys a = keys b).

Definition region_is_superset (a b : region_t) : bool :=
  bool_decide (keys b ⊆ keys a).

Definition region_intersection (r1 r2 : region_t) : region_t :=
  mk_region (keys r1 ∩ keys r2).

Fixpoint region_join_from (u : gset string) (vec : list region_t)
  : exc region_t :=
  match vec with
  | [] => Ok (mk_region u)
  | r :: rest =>
      if bool_decide (keys r ## u)
      then region_join_from (u ∪ keys r) rest
      else Throw bad_join_exc_t
  end.

Definition region_join (vec : list region_t) : exc region_t :=
  region_join_from ∅ vec.

Definition region_subtract_many (a : region_t) (b : list region_t)
  : list region_t :=
  [mk_region (keys a ∖ ⋃ (keys <$> b))].

End dummy_protocol_t.

#[global] Instance dummy_protocol : protocol_t := {|
  key_t := string;
  region_t := dummy_protocol_t.region_t;
  region_contains := dummy_protocol_t.region_contains;
  region_empty := dummy_protocol_t.empty;
  region_eqb := dummy_protocol_t.region_eqb;
  region_is_superset := dummy_protocol_t.region_is_superset;
  region_intersection := dummy_protocol_t.region_intersection;
  region_join := dummy_protocol_t.region_join;
  region_subtract_many := dummy_protocol_t.region_subtract_many;
|}.

(** A dummy region from the list of its keys. *)
Definition dummy_region (ks : list string) : dummy_protocol_t.region_t :=
  dummy_protocol_t.mk_region (list_to_set ks).

(** ** [store_view_t] and [store_subview_t] *)

Section store_view.
Context {P : protocol_t} {binary_blob_t : Type} `{!EqDecision binary_blob_t}.

(** [metainfo_t]: a region map of binary blobs. *)
#[local] Abbreviation metainfo_t := (region_map_t P binary_blob_t)
  (only parsing).

(** [store_view_t], the abstract class, as the record of its members over
    the state [store_state] that the virtual functions read and write.
    Only the metainfo members are embedded. *)
Record store_view_t (store_state : Type) : Type := {
  get_region : region_t;
  get_metainfo : store_state → exc metainfo_t;
  set_metainfo : metainfo_t → store_state → exc store_state;
}.
#[global] Arguments get_region {store_state} _.
#[global] Arguments get_metainfo {store_state} _ _.
#[global] Arguments set_metainfo {store_state} _ _ _.

(** A [store_subview_t] object over the parent [store_view]:
    [get_metainfo] masks the parent's answer; [set_metainfo] asserts its
    precondition against the subregion and delegates. *)
Definition subview_of {store_state : Type}
    (store_view : store_view_t store_state) (region : region_t)
  : store_view_t store_state :=
  {| get_region := region;
     get_metainfo := λ s,
       m ← get_metainfo store_view s; mask region m;
     set_metainfo := λ new_metainfo s,
       d ← get_domain new_metainfo;
       _ ← rassert (region_is_superset region d);
       set_metainfo store_view new_metainfo s |}.

(** The constructor of [store_subview_t]: it asserts that the parent's
    region holds the subregion. *)
Definition store_subview_t {store_state : Type}
    (store_view : store_view_t store_state) (region : region_t)
  : exc (store_view_t store_state) :=
  _ ← rassert (region_is_superset (get_region store_view) region);
  Ok (subview_of store_view region).

(** Modelled from the spec: the store behind the views
    ([protocol_t::store_t]) is not among the sources.  Its state is the
    metainfo it holds: [get_metainfo] returns it, and [set_metainfo], under
    its documented precondition that the region holds the new domain, leaves
    the new metainfo as the one held (postcondition
    [get_metainfo() == new_metainfo]). *)
Definition store_t (region : region_t) : store_view_t metainfo_t :=
  {| get_region := region;
     get_metainfo := λ s, Ok s;
     set_metainfo := λ new_metainfo s,
       d ← get_domain new_metainfo;
       _ ← rassert (region_is_superset region d);
       Ok new_metainfo |}.

(** The postcondition documented at [get_metainfo], in a state [s]. *)
Definition get_metainfo_postcondition {store_state : Type}
    (view : store_view_t store_state) (s : store_state) : Prop :=
  ∃ m d, get_metainfo view s = Ok m ∧ get_domain m = Ok d ∧
         region_eqb d (get_region view) = true.

End store_view.

Abbreviation metainfo_t P binary_blob_t := (region_map_t P binary_blob_t)
  (only parsing).
Arguments store_view_t P binary_blob_t store_state : clear implicits.

(** ** [master_t]: the mailbox handlers *)

Module master_t.
Section master.
Context {read_t read_response_t write_t write_response_t : Type}.
Context {order_token_t address_t : Type}.

(** Modelled from the spec: [mirror_dispatcher_t] is not among the
    sources.  A call of its [read] or [write] returns a response or
    throws. *)
Record mirror_dispatcher_t : Type := {
  read : read_t → order_token_t → exc read_response_t;
  write : write_t → order_token_t → exc write_response_t;
}.

(** [e.what()]. *)
Context (what : exception → string).

(** What [send] delivers to a response address: the
    [boost::variant<response, std::string>]. *)
Inductive message : Type :=
  | read_reply (to : address_t) (payload : read_response_t + string)
  | write_reply (to : address_t) (payload : write_response_t + string).

(** [auto_drainer_t::lock_t]: the drainer the lock holds. *)
Record lock_t : Type := { held_drainer : nat }.

Record master_t : Type := {
  mirror_dispatcher : mirror_dispatcher_t;
  drainer : nat;
}.

Definition assert_is_holding (keepalive : lock_t) (d : nat) : exc unit :=
  rassert (bool_decide (held_drainer keepalive = d)).

(** A handler returns the messages it sent besides its outcome.  The two
    [catch] clauses are the two [Throw] cases that reply; any other
    exception leaves the [try] block. *)
Definition on_read (m : master_t) (rd : read_t) (otok : order_token_t)
    (response_address : address_t) (keepalive : lock_t)
  : exc unit * list message :=
  match assert_is_holding keepalive (drainer m) with
  | Throw e => (Throw e, [])
  | Ok _ =>
      match read (mirror_dispatcher m) rd otok with
      | Ok response => (Ok tt, [read_reply response_address (inl response)])
      | Throw mirror_lost_exc_t =>
          (Ok tt, [read_reply response_address (inr (what mirror_lost_exc_t))])
      | Throw insufficient_mirrors_exc_t =>
          (Ok tt,
           [read_reply response_address (inr (what insufficient_mirrors_exc_t))])
      | Throw e => (Throw e, [])
      end
  end.

Definition on_write (m : master_t) (wr : write_t) (otok : order_token_t)
    (response_address : address_t) (keepalive : lock_t)
  : exc unit * list message :=
  match assert_is_holding keepalive (drainer m) with
  | Throw e => (Throw e, [])
  | Ok _ =>
      match write (mirror_dispatcher m) wr otok with
      | Ok response => (Ok tt, [write_reply response_address (inl response)])
      | Throw mirror_lost_exc_t =>
          (Ok tt, [write_reply response_address (inr (what mirror_lost_exc_t))])
      | Throw insufficient_mirrors_exc_t =>
          (Ok tt,
           [write_reply response_address (inr (what insufficient_mirrors_exc_t))])
      | Throw e => (Throw e, [])
      end
  end.

(** The callbacks the constructor binds to [read_mailbox] and
    [write_mailbox]: the handler with a lock of the master's own
    drainer. *)
Definition read_mailbox (m : master_t) (rd : read_t) (otok : order_token_t)
    (response_address : address_t) : exc unit * list message :=
  on_read m rd otok response_address {| held_drainer := drainer m |}.

Definition write_mailbox (m : master_t) (wr : write_t) (otok : order_token_t)
    (response_address : address_t) : exc unit * list message :=
  on_write m wr otok response_address {| held_drainer := drainer m |}.
End master.
End master_t.

(** ** [registrant_t] *)

Module registrant_t.
Section registrant.
Context {data_t peer_id_t registration_id_t address_t : Type}.
Context `{!EqDecision registration_id_t, !EqDecision address_t}.

(** [registrar_metadata_t]: the two mailboxes the registrar exposes. *)
Record registrar_metadata_t : Type := {
  create_mailbox : address_t;
  delete_mailbox : address_t;
}.

Inductive message : Type :=
  | create_message (to : address_t) (rid : registration_id_t)
      (peer : peer_id_t) (initial_value : data_t)
  | delete_message (to : address_t) (rid : registration_id_t).

(** The cluster as the registrant sees it: a clock that every access to
    the registrar's metadata and every send advances, and the messages
    sent so far, oldest first. *)
Record world : Type := { now : nat; sent : list message }.

Definition send (msg : message) (w : world) : world :=
  {| now := S (now w); sent := sent w ++ [msg] |}.

(** [mailbox_manager_t], as far as the registrant uses it. *)
Record mailbox_manager_t : Type := { get_me : peer_id_t }.

(** Modelled from the spec: [resource_access_t] is not among the sources.
    It watches the registrar's metadata, here what the metadata view shows
    at each time, [None] from when the resource is lost; its constructor
    and [access] throw [resource_lost_exc_t] when the resource is lost at
    that time. *)
Record resource_access_t : Type := {
  registrar_md : nat → option registrar_metadata_t;
}.

Definition access (registrar : resource_access_t) (w : world)
  : exc registrar_metadata_t * world :=
  let w' := {| now := S (now w); sent := sent w |} in
  match registrar_md registrar (now w) with
  | Some md => (Ok md, w')
  | None => (Throw resource_lost_exc_t, w')
  end.

Definition resource_access_t_ctor (md : nat → option registrar_metadata_t)
    (w : world) : exc resource_access_t * world :=
  let registrar := {| registrar_md := md |} in
  match access registrar w with
  | (Ok _, w') => (Ok registrar, w')
  | (Throw e, w') => (Throw e, w')
  end.

(** [send_deregister_message]. *)
Definition send_deregister_message (addr : address_t)
    (rid : registration_id_t) (w : world) : world :=
  send (delete_message addr rid) w.

(** The [boost::bind] of [send_deregister_message] to its arguments. *)
Record bound_deregister : Type := {
  bound_addr : address_t;
  bound_rid : registration_id_t;
}.

(** Modelled from the spec: [death_runner_t] is not among the sources; it
    holds a function [fun] that its destructor runs (when one was set). *)
Record death_runner_t : Type := { fun_ : option bound_deregister }.

Definition death_runner_t_dtor (d : death_runner_t) (w : world) : world :=
  match fun_ d with
  | Some f => send_deregister_message (bound_addr f) (bound_rid f) w
  | None => w
  end.

(** The members, in declaration order. *)
Record registrant_t : Type := {
  deregisterer : death_runner_t;
  cluster : mailbox_manager_t;
  registrar : resource_access_t;
  registration_id : registration_id_t;
}.

(** First statement of the constructor's body: [deregisterer.fun] is set
    to the bound [send_deregister_message]. *)
Definition arm_deregisterer (registrar : resource_access_t)
    (rid : registration_id_t) (w : world) : exc death_runner_t * world :=
  match access registrar w with
  | (Ok md, w') =>
      (Ok {| fun_ := Some {| bound_addr := delete_mailbox md;
                             bound_rid := rid |} |}, w')
  | (Throw e, w') => (Throw e, w')
  end.

(** Second statement: the message that registers. *)
Definition send_create (cl : mailbox_manager_t) (registrar : resource_access_t)
    (rid : registration_id_t) (initial_value : data_t) (w : world)
  : exc unit * world :=
  match access registrar w with
  | (Ok md, w') =>
      (Ok tt, send (create_message (create_mailbox md) rid (get_me cl)
                      initial_value) w')
  | (Throw e, w') => (Throw e, w')
  end.

(** The constructor; [rid] is what [generate_uuid()] returned.  When a
    statement throws, the members built so far are destroyed, the
    [deregisterer] among them, before the exception leaves. *)
Definition ctor (cl : mailbox_manager_t)
    (md : nat → option registrar_metadata_t) (rid : registration_id_t)
    (initial_value : data_t) (w : world) : exc registrant_t * world :=
  let empty_runner := {| fun_ := None |} in
  match resource_access_t_ctor md w with
  | (Throw e, w1) => (Throw e, death_runner_t_dtor empty_runner w1)
  | (Ok registrar, w1) =>
      match arm_deregisterer registrar rid w1 with
      | (Throw e, w2) => (Throw e, death_runner_t_dtor empty_runner w2)
      | (Ok armed, w2) =>
          match send_create cl registrar rid initial_value w2 with
          | (Throw e, w3) => (Throw e, death_runner_t_dtor armed w3)
          | (Ok _, w3) =>
              (Ok {| deregisterer := armed; cluster := cl;
                     registrar := registrar; registration_id := rid |}, w3)
          end
      end
  end.

(** The destructor: an empty body, then the members' destructors. *)
Definition dtor (r : registrant_t) (w : world) : world :=
  death_runner_t_dtor (deregisterer r) w.

(** The life of a registrant: construction and, when that succeeded, a
    later destruction; in between the world moves on by [others], the
    messages of other senders. *)
Definition lifetime (cl : mailbox_manager_t)
    (md : nat → option registrar_metadata_t) (rid : registration_id_t)
    (initial_value : data_t) (others : list message) (w : world)
  : exc unit * world :=
  match ctor cl md rid initial_value w with
  | (Throw e, w') => (Throw e, w')
  | (Ok r, w') =>
      (Ok tt, dtor r {| now := now w' + length others;
                        sent := sent w' ++ others |})
  end.

Definition is_create_for (rid : registration_id_t) (msg : message) : bool :=
  match msg with
  | create_message _ rid' _ _ => bool_decide (rid' = rid)
  | delete_message _ _ => false
  end.

Definition is_delete_for (addr : address_t) (rid : registration_id_t)
    (msg : message) : bool :=
  match msg with
  | create_message _ _ _ _ => false
  | delete_message to rid' => bool_decide (to = addr) && bool_decide (rid' = rid)
  end.

Definition is_delete_of (rid : registration_id_t) (msg : message) : bool :=
  match msg with
  | create_message _ _ _ _ => false
  | delete_message _ rid' => bool_decide (rid' = rid)
  end.

(** How many messages of a list satisfy a test. *)
Definition count (test : message → bool) (msgs : list message) : nat :=
  length (filter (λ msg, test msg = true) msgs).
End registrant.
End registrant_t.

(** ** [one_waiter_cond_t] *)

Module one_waiter_cond_t.
(** A coroutine, by its identity. *)
Definition coro_t : Type := nat.

Record one_waiter_cond_t : Type := {
  pulsed_ : bool;
  waiter_ : option coro_t;
}.

(** [tmp->notify_now()]: the coroutine runs at once; the event records the
    object as that coroutine finds it. *)
Inductive event : Type :=
  | notify_now (who : coro_t) (seen : one_waiter_cond_t).

Definition pulse (c : one_waiter_cond_t)
  : exc (one_waiter_cond_t * list event) :=
  _ ← rassert (negb (pulsed_ c));
  let c1 := {| pulsed_ := true; waiter_ := waiter_ c |} in
  match waiter_ c1 with
  | Some tmp =>
      let c2 := {| pulsed_ := pulsed_ c1; waiter_ := None |} in
      Ok (c2, [notify_now tmp c2])
  | None => Ok (c1, [])
  end.

(** [wait_eagerly] up to [coro_t::wait()]: it returns, or the caller is
    left suspended until notified. *)
Inductive wait_outcome : Type :=
  | returned
  | suspended.

Definition wait_eagerly (self : coro_t) (c : one_waiter_cond_t)
  : exc (one_waiter_cond_t * wait_outcome) :=
  _ ← rassert (negb (bool_decide (is_Some (waiter_ c))));
  if negb (pulsed_ c)
  then Ok ({| pulsed_ := pulsed_ c; waiter_ := Some self |}, suspended)
  else Ok (c, returned).

(** The rest of [wait_eagerly], run when the coroutine is resumed. *)
Definition wait_eagerly_resumed (c : one_waiter_cond_t) : exc unit :=
  rassert (pulsed_ c).

Definition notifies (who : coro_t) (ev : event) : bool :=
  match ev with
  | notify_now w _ => bool_decide (w = who)
  end.

Definition notifications_of (who : coro_t) (evs : list event) : nat :=
  length (filter (λ ev, notifies who ev = true) evs).
End one_waiter_cond_t.

(** ** Further members of the embedded classes *)

(** The default constructor of [region_map_t]: no pairs. *)
Definition region_map_t_empty {P : protocol_t} {value_t : Type}
  : region_map_t P value_t := [].

(** The data members of [store_view_t], beside the metainfo members of the
    record above, as the debug build declares them (with the
    [DEBUG_ONLY] parameter [expected_metainfo]); the callbacks of
    [send_backfill] are passed through as they are. *)
Section store_data.
Context {P : protocol_t} {binary_blob_t : Type} `{!EqDecision binary_blob_t}.
Context {read_t read_response_t write_t write_response_t : Type}.
Context {transition_timestamp_t state_timestamp_t : Type}.
Context {backfill_chunk_t should_backfill_t chunk_fun_t : Type}.

Record store_data_t (store_state : Type) : Type := {
  read : metainfo_t P binary_blob_t → read_t → store_state →
         exc read_response_t;
  write : metainfo_t P binary_blob_t → metainfo_t P binary_blob_t →
          write_t → transition_timestamp_t → store_state →
          exc (write_response_t * store_state);
  send_backfill : region_map_t P state_timestamp_t → should_backfill_t →
                  chunk_fun_t → store_state → exc bool;
  receive_backfill : backfill_chunk_t → store_state → exc store_state;
  reset_data : region_t → metainfo_t P binary_blob_t → store_state →
               exc store_state;
}.
#[global] Arguments read {store_state} _ _ _ _.
#[global] Arguments write {store_state} _ _ _ _ _ _.
#[global] Arguments send_backfill {store_state} _ _ _ _ _.
#[global] Arguments receive_backfill {store_state} _ _ _.
#[global] Arguments reset_data {store_state} _ _ _ _.

(** The data members of a [store_subview_t] over [region]: the assertions
    on the region, then the parent's member. *)
Definition subview_data_of {store_state : Type}
    (store_view : store_data_t store_state) (region : region_t)
  : store_data_t store_state :=
  {| read := λ expected_metainfo rd s,
       d ← get_domain expected_metainfo;
       _ ← rassert (region_is_superset region d);
       read store_view expected_metainfo rd s;
     write := λ expected_metainfo new_metainfo wr timestamp s,
       d ← get_domain expected_metainfo;
       _ ← rassert (region_is_superset region d);
       dn ← get_domain new_metainfo;
       _ ← rassert (region_is_superset region dn);
       write store_view expected_metainfo new_metainfo wr timestamp s;
     send_backfill := λ start_point should_backfill chunk_fun s,
       d ← get_domain start_point;
       _ ← rassert (region_is_superset region d);
       send_backfill store_view start_point should_backfill chunk_fun s;
     receive_backfill := λ chunk s, receive_backfill store_view chunk s;
     reset_data := λ subregion new_metainfo s,
       _ ← rassert (region_is_superset region subregion);
       dn ← get_domain new_metainfo;
       _ ← rassert (region_is_superset region dn);
       reset_data store_view subregion new_metainfo s |}.
End store_data.

(** The address a reply of the master is sent to. *)
Definition reply_address
    {read_response_t write_response_t address_t : Type}
    (msg : @master_t.message read_response_t write_response_t address_t)
  : address_t :=
  match msg with
  | master_t.read_reply to _ => to
  | master_t.write_reply to _ => to
  end.

(** The invariant of [one_waiter_cond_t]: a coroutine is registered as
    waiter only while the condition is not pulsed. *)
Definition waiter_only_unpulsed (c : one_waiter_cond_t.one_waiter_cond_t)
  : Prop :=
  is_Some (one_waiter_cond_t.waiter_ c) → one_waiter_cond_t.pulsed_ c = false.

(** ** The JSON adapter of the dummy protocol's regions *)

Module json_adapter.
(** The order in which a [std::set<std::string>] is iterated: ascending
    for the comparison of [std::string], character by character. *)
Definition string_le (a b : string) : Prop := String.leb a b = true.

#[global] Instance string_le_dec (a b : string) : Decision (string_le a b) :=
  decide (String.leb a b = true).

Definition keys_in_order (target : dummy_protocol_t.region_t) : list string :=
  merge_sort string_le (elements (dummy_protocol_t.keys target)).

(** The loop of [render_as_json]: each key, then a comma and a blank. *)
Fixpoint append_keys (val : string) (its : list string) : string :=
  match its with
  | [] => val
  | it :: rest => append_keys ((val +:+ it) +:+ ", ") rest
  end.

(** [val.c_str()] as [cJSON_CreateString] reads it: the characters before
    the first NUL. *)
Fixpoint c_str (val : string) : string :=
  match val with
  | EmptyString => EmptyString
  | String c rest =>
      if Ascii.eqb c Ascii.zero then EmptyString else String c (c_str rest)
  end.

(** The node [cJSON_CreateString] returns. *)
Inductive cJSON : Type :=
  | cJSON_String (valuestring : string).

Definition valuestring_of (node : cJSON) : string :=
  match node with cJSON_String v => v end.

Definition render_as_json (target : dummy_protocol_t.region_t) : cJSON :=
  let val := EmptyString in
  let val := val +:+ "{" in
  let val := append_keys val (keys_in_order target) in
  let val := val +:+ "}" in
  cJSON_String (c_str val).

(** What the loop appends in all: each key followed by a comma and a
    blank. *)
Fixpoint keys_text (its : list string) : string :=
  match its with
  | [] => EmptyString
  | it :: rest => it +:+ ", " +:+ keys_text rest
  end.

(** Whether a character occurs in a string. *)
Fixpoint has_char (c : Ascii.ascii) (s : string) : bool :=
  match s with
  | EmptyString => false
  | String c' rest => Ascii.eqb c' c || has_char c rest
  end.
End json_adapter.

(** ** Example maps over the dummy protocol *)

(** One entry over the keys a to d. *)
Definition example_old : region_map_t dummy_protocol nat :=
  [(dummy_region ["a"; "b"; "c"; "d"], 0)]%string.

(** Two disjoint entries inside that domain. *)
Definition example_new : region_map_t dummy_protocol nat :=
  [(dummy_region ["b"], 1); (dummy_region ["d"], 2)]%string.

(** One function over the keys a to d, as three pairs and as two. *)
Definition example_split : region_map_t dummy_protocol nat :=
  [(dummy_region ["c"; "d"], 7); (dummy_region ["a"], 7);
   (dummy_region ["b"], 7)]%string.

Definition example_whole : region_map_t dummy_protocol nat :=
  [(dummy_region ["a"; "b"], 7); (dummy_region ["c"; "d"], 7)]%string.

(** The map of the update scenario: one value over the keys a to f, then
    an overlay of two disjoint pairs. *)
Definition example_scenario_old : region_map_t dummy_protocol nat :=
  [(dummy_region ["a"; "b"; "c"; "d"; "e"; "f"], 0)]%string.

Definition example_scenario_new : region_map_t dummy_protocol nat :=
  [(dummy_region ["b"; "c"], 1); (dummy_region ["e"], 2)]%string.

(** New values whose two regions share the key c. *)
Definition example_overlapping : region_map_t dummy_protocol nat :=
  [(dummy_region ["b"; "c"], 1); (dummy_region ["c"; "d"], 2)]%string.

(** A store over the keys a to c, a subregion of it, the metainfo the store
    holds, and a new metainfo over a strict part of the subregion. *)
Definition example_store_region : dummy_protocol_t.region_t :=
  dummy_region ["a"; "b"; "c"]%string.

Definition example_subregion : dummy_protocol_t.region_t :=
  dummy_region ["a"; "b"]%string.

Definition example_metainfo : metainfo_t dummy_protocol string :=
  [(dummy_region ["a"; "b"; "c"], "old")]%string.

Definition example_new_metainfo : metainfo_t dummy_protocol string :=
  [(dummy_region ["a"], "new")]%string.

Definition example_store
  : store_view_t dummy_protocol string (metainfo_t dummy_protocol string) :=
  store_t example_store_region.

(** A store whose data members answer with what they were asked, over a
    counter as state. *)
Definition example_data_store
  : @store_data_t dummy_protocol string nat nat nat nat nat nat nat nat nat
      nat :=
  {| read := λ _ rd s, Ok (rd + s);
     write := λ _ _ wr _ s, Ok (wr, S s);
     send_backfill := λ _ _ _ _, Ok true;
     receive_backfill := λ _ s, Ok (S s);
     reset_data := λ _ _ _, Ok 0 |}.

(** ** Example coordinator objects *)

(** The failure strings of the two dispatcher exceptions. *)
Definition example_what (e : exception) : string :=
  match e with
  | mirror_lost_exc_t => "mirror lost"
  | insufficient_mirrors_exc_t => "insufficient mirrors"
  | _ => "other"
  end%string.

(** A dispatcher that answers read 0 and write 0, loses the mirror on 1 and
    has too few mirrors for anything else. *)
Definition example_dispatcher
  : @master_t.mirror_dispatcher_t nat nat nat nat nat :=
  {| master_t.read := λ rd _,
       match rd with
       | 0 => Ok 42
       | 1 => Throw mirror_lost_exc_t
       | _ => Throw insufficient_mirrors_exc_t
       end;
     master_t.write := λ wr _,
       match wr with
       | 0 => Ok 43
       | 1 => Throw mirror_lost_exc_t
       | _ => Throw insufficient_mirrors_exc_t
       end |}.

Definition example_master : @master_t.master_t nat nat nat nat nat :=
  {| master_t.mirror_dispatcher := example_dispatcher;
     master_t.drainer := 5 |}.

(** A registrar that stays alive, and one that is lost from the third
    look at its metadata on. *)
Definition example_registrar_md (t : nat)
  : option (@registrant_t.registrar_metadata_t nat) :=
  Some {| registrant_t.create_mailbox := 10;
          registrant_t.delete_mailbox := 11 |}.

Definition example_registrar_lost_md (t : nat)
  : option (@registrant_t.registrar_metadata_t nat) :=
  if bool_decide (t < 2) then example_registrar_md t else None.

Definition example_cluster : @registrant_t.mailbox_manager_t nat :=
  {| registrant_t.get_me := 1 |}.

Definition example_world : @registrant_t.world nat nat nat nat :=
  {| registrant_t.now := 0; registrant_t.sent := [] |}.

(** * Properties *)

(** ** The [exc] monad *)

Lemma exc_bind_Ok {A B} (f : A → exc B) (m : exc A) (b : B) :
  m ≫= f = Ok b ↔ ∃ a, m = Ok a ∧ f a = Ok b.
Proof.
  destruct m as [a|e]; simpl; split.
  - intros H; eauto.
  - intros (a' & [= <-] & H); done.
  - intros [=].
  - intros (a' & [=] & _).
Qed.

Lemma rassert_Ok (cond : bool) (u : unit) :
  rassert cond = Ok u ↔ cond = true.
Proof. destruct cond, u; simpl; split; congruence. Qed.

(** Unfolds one successful bind or assertion in a hypothesis. *)
Ltac exc_step :=
  match goal with
  | H : _ ≫= _ = Ok _ |- _ =>
      apply exc_bind_Ok in H; destruct H as (? & ? & H)
  | H : rassert _ = Ok _ |- _ => apply rassert_Ok in H
  | H : Ok _ = Ok _ |- _ => injection H as H
  | H : mret _ = Ok _ |- _ => injection H as H
  end.

(** ** The region algebra *)

Section region_facts.
Context {P : protocol_t} `{!protocol_laws P}.
Implicit Types (r a b : region_t) (rs : list region_t) (k : key_t).

Lemma region_is_empty_true r :
  region_is_empty r = true ↔ ∀ k, region_contains r k = false.
Proof.
  unfold region_is_empty. rewrite region_is_superset_spec. split.
  - intros H k. destruct (region_contains r k) eqn:Hk; [|done].
    apply H in Hk. by rewrite region_empty_spec in Hk.
  - intros H k Hk. by rewrite H in Hk.
Qed.

Lemma region_is_empty_false r :
  region_is_empty r = false → ∃ k, region_contains r k = true.
Proof.
  intros H. apply region_not_superset in H as (k & Hk & _). eauto.
Qed.

Lemma region_overlaps_false a b :
  region_overlaps a b = false ↔
  ∀ k, region_contains a k = true → region_contains b k = false.
Proof.
  unfold region_overlaps. rewrite negb_false_iff, region_is_empty_true.
  split; intros H k.
  - intros Ha. specialize (H k).
    rewrite region_intersection_spec, Ha in H. done.
  - rewrite region_intersection_spec.
    destruct (region_contains a k) eqn:Ha; [|done]. by rewrite (H k Ha).
Qed.

Lemma region_overlaps_true a b :
  region_overlaps a b = true ↔
  ∃ k, region_contains a k = true ∧ region_contains b k = true.
Proof.
  split.
  - unfold region_overlaps. rewrite negb_true_iff.
    intros (k & Hk)%region_is_empty_false.
    rewrite region_intersection_spec in Hk.
    apply andb_true_iff in Hk. eauto.
  - intros (k & Ha & Hb). destruct (region_overlaps a b) eqn:E; [done|].
    rewrite region_overlaps_false in E. rewrite (E k Ha) in Hb. done.
Qed.

Lemma multiplicity_nil k : multiplicity [] k = 0.
Proof. done. Qed.

Lemma multiplicity_cons r rs k :
  multiplicity (r :: rs) k =
  (if region_contains r k then 1 else 0) + multiplicity rs k.
Proof.
  unfold multiplicity. rewrite filter_cons.
  destruct (decide (region_contains r k = true)) as [->|Hn]; [done|].
  by apply not_true_is_false in Hn as ->.
Qed.

Lemma multiplicity_app rs1 rs2 k :
  multiplicity (rs1 ++ rs2) k = multiplicity rs1 k + multiplicity rs2 k.
Proof. unfold multiplicity. by rewrite filter_app, length_app. Qed.

Lemma covers_cons r rs k :
  covers (r :: rs) k = region_contains r k || covers rs k.
Proof. done. Qed.

Lemma covers_multiplicity rs k :
  covers rs k = bool_decide (0 < multiplicity rs k).
Proof.
  induction rs as [|r rs IH]; [done|].
  rewrite covers_cons, multiplicity_cons, IH.
  destruct (region_contains r k); [|done].
  cbn [orb]. symmetry. apply bool_decide_eq_true_2. lia.
Qed.

Lemma covers_false_multiplicity rs k :
  covers rs k = false ↔ multiplicity rs k = 0.
Proof.
  rewrite covers_multiplicity, bool_decide_eq_false. lia.
Qed.

Lemma covers_true_elem rs k :
  covers rs k = true ↔ ∃ r, r ∈ rs ∧ region_contains r k = true.
Proof.
  unfold covers. rewrite existsb_exists.
  split; intros (r & Hr & Hk); exists r; by rewrite ?list_elem_of_In in *.
Qed.

(** Disjointness, key by key: no key lies in two regions of the vector. *)
Lemma regions_disjoint_multiplicity rs :
  regions_disjoint rs = true ↔ ∀ k, multiplicity rs k ≤ 1.
Proof.
  induction rs as [|r rs IH]; simpl.
  - split; [intros _ k; rewrite multiplicity_nil; lia | done].
  - rewrite andb_true_iff, IH, forallb_forall. split.
    + intros [Hr Hrs] k. rewrite multiplicity_cons.
      destruct (region_contains r k) eqn:Hk; [|apply Hrs].
      enough (multiplicity rs k = 0) as -> by lia.
      apply covers_false_multiplicity.
      destruct (covers rs k) eqn:Hc; [|done].
      apply covers_true_elem in Hc as (r' & Hin & Hk').
      apply list_elem_of_In, Hr in Hin.
      apply negb_true_iff in Hin.
      rewrite region_overlaps_false in Hin. by rewrite (Hin k Hk) in Hk'.
    + intros H. split.
      * intros r' Hin. apply negb_true_iff, region_overlaps_false.
        intros k Hk. specialize (H k). rewrite multiplicity_cons, Hk in H.
        destruct (region_contains r' k) eqn:Hk'; [|done].
        assert (covers rs k = true) as Hc.
        { apply covers_true_elem. exists r'. by rewrite list_elem_of_In. }
        rewrite covers_multiplicity, bool_decide_eq_true in Hc. lia.
      * intros k. specialize (H k). rewrite multiplicity_cons in H. lia.
Qed.


(** Disjointness, by positions. *)
Lemma regions_disjoint_lookup rs :
  regions_disjoint rs = true ↔
  ∀ i j ri rj, i ≠ j → rs !! i = Some ri → rs !! j = Some rj →
               region_is_empty (region_intersection ri rj) = true.
Proof.
  rewrite regions_disjoint_multiplicity. split.
  - intros H i j ri rj Hij Hi Hj. apply region_is_empty_true. intros k.
    rewrite region_intersection_spec.
    destruct (region_contains ri k) eqn:Hki; [|done].
    destruct (region_contains rj k) eqn:Hkj; [|done]. exfalso.
    specialize (H k). revert i j Hij Hi Hj H. clear -Hki Hkj.
    induction rs as [|r rs IH]; intros [|i] [|j] Hij Hi Hj; simpl in *;
      try done; rewrite multiplicity_cons.
    + injection Hi as ->. rewrite Hki.
      assert (0 < multiplicity rs k); [|lia].
      apply (bool_decide_eq_true (0 < _)). rewrite <- covers_multiplicity.
      apply covers_true_elem. exists rj. split; [|done].
      by eapply list_elem_of_lookup_2.
    + injection Hj as ->. rewrite Hkj.
      assert (0 < multiplicity rs k); [|lia].
      apply (bool_decide_eq_true (0 < _)). rewrite <- covers_multiplicity.
      apply covers_true_elem. exists ri. split; [|done].
      by eapply list_elem_of_lookup_2.
    + intros H. apply (IH i j); [congruence|done|done|lia].
  - intros H. apply regions_disjoint_multiplicity.
    induction rs as [|r rs IH]; [done|]. simpl. apply andb_true_iff. split.
    + apply forallb_forall. intros r' Hin%list_elem_of_In.
      apply list_elem_of_lookup in Hin as [j Hj].
      unfold region_overlaps. rewrite negb_involutive.
      by apply (H 0 (S j)).
    + apply IH. intros i j ri rj Hij Hi Hj.
      by apply (H (S i) (S j)); [congruence| |].
Qed.
End region_facts.

(** ** Region maps: domains, masks and updates, key by key *)

Section region_map_facts.
Context {P : protocol_t} `{!protocol_laws P}.
Context {value_t : Type} `{!EqDecision value_t}.
Implicit Types (m n : region_map_t P value_t) (r : region_t) (k : key_t).

Lemma get_domain_Ok m d :
  get_domain m = Ok d →
  regions_disjoint (m.*1) = true ∧
  ∀ k, region_contains d k = covers (m.*1) k.
Proof.
  unfold get_domain. intros H. split; [|by apply region_join_spec].
  destruct (regions_disjoint (m.*1)) eqn:E; [done|].
  apply region_join_overlap in E. congruence.
Qed.

Lemma get_domain_intro m (u : region_t) :
  regions_disjoint (m.*1) = true →
  (∀ k, region_contains u k = covers (m.*1) k) →
  ∃ d, get_domain m = Ok d ∧ ∀ k, region_contains d k = region_contains u k.
Proof.
  intros Hd Hu. destruct (region_join_expressible _ _ Hd Hu) as [d Hj].
  exists d. split; [done|]. intros k.
  by rewrite (region_join_spec _ _ Hj), Hu.
Qed.

Lemma masked_pairs_multiplicity r m k :
  multiplicity ((masked_pairs r m).*1) k =
  if region_contains r k then multiplicity (m.*1) k else 0.
Proof.
  induction m as [|[ri vi] m IH]; cbn [masked_pairs].
  - by destruct (region_contains r k).
  - destruct (region_is_empty (region_intersection ri r)) eqn:E;
      cbn [negb]; rewrite !fmap_cons; cbn [fst];
      rewrite !multiplicity_cons, IH.
    + rewrite region_is_empty_true in E. specialize (E k).
      rewrite region_intersection_spec in E.
      by destruct (region_contains ri k), (region_contains r k).
    + rewrite region_intersection_spec.
      by destruct (region_contains ri k), (region_contains r k).
Qed.

Lemma masked_pairs_covers r m k :
  covers ((masked_pairs r m).*1) k =
  covers (m.*1) k && region_contains r k.
Proof.
  rewrite !covers_multiplicity, masked_pairs_multiplicity.
  destruct (region_contains r k); [by rewrite andb_true_r|].
  by rewrite andb_false_r.
Qed.

Lemma masked_pairs_disjoint r m :
  regions_disjoint (m.*1) = true →
  regions_disjoint ((masked_pairs r m).*1) = true.
Proof.
  rewrite !regions_disjoint_multiplicity. intros H k.
  rewrite masked_pairs_multiplicity.
  destruct (region_contains r k); [apply H|lia].
Qed.

Lemma masked_pairs_domain r m d :
  get_domain m = Ok d →
  ∃ d', get_domain (masked_pairs r m) = Ok d' ∧
        ∀ k, region_contains d' k = region_contains d k && region_contains r k.
Proof.
  intros [Hdis Hd]%get_domain_Ok.
  destruct (get_domain_intro (masked_pairs r m) (region_intersection d r))
    as (d' & Hd' & Hk).
  - by apply masked_pairs_disjoint.
  - intros k. by rewrite region_intersection_spec, masked_pairs_covers, Hd.
  - exists d'. split; [done|]. intros k.
    by rewrite Hk, region_intersection_spec.
Qed.

Lemma mask_Ok r m d :
  get_domain m = Ok d → mask r m = Ok (masked_pairs r m).
Proof.
  intros Hm. destruct (masked_pairs_domain r m d Hm) as (d' & Hd' & _).
  unfold mask, region_map_t_range. by rewrite Hd'.
Qed.

Lemma mask_inv r m m' : mask r m = Ok m' → m' = masked_pairs r m.
Proof.
  unfold mask, region_map_t_range. intros H. by repeat exc_step.
Qed.

Lemma subtract_many_multiplicity (a : region_t) (bs : list region_t) k :
  multiplicity (region_subtract_many a bs) k =
  if region_contains a k && negb (covers bs k) then 1 else 0.
Proof.
  pose proof (region_subtract_many_disjoint a bs) as Hd.
  rewrite regions_disjoint_multiplicity in Hd. specialize (Hd k).
  pose proof (region_subtract_many_spec a bs k) as Hc.
  rewrite covers_multiplicity in Hc. rewrite <- Hc.
  case_bool_decide; lia.
Qed.

Lemma updated_pairs_fst old (v : value_t) m (overlay : list region_t) :
  (updated_pairs ((old, v) :: m) overlay).*1 =
  region_subtract_many old overlay ++ (updated_pairs m overlay).*1.
Proof.
  cbn [updated_pairs]. rewrite fmap_app. f_equal.
  rewrite <- list_fmap_compose.
  induction (region_subtract_many old overlay) as [|j js IH]; [done|].
  rewrite fmap_cons. by f_equal.
Qed.

Lemma updated_pairs_multiplicity m (overlay : list region_t) k :
  multiplicity ((updated_pairs m overlay).*1) k =
  if covers overlay k then 0 else multiplicity (m.*1) k.
Proof.
  induction m as [|[old v] m IH].
  - by destruct (covers overlay k).
  - rewrite updated_pairs_fst, multiplicity_app, IH,
      subtract_many_multiplicity, fmap_cons, multiplicity_cons.
    cbn [fst].
    by destruct (region_contains old k), (covers overlay k).
Qed.

Lemma updated_multiplicity m n k :
  multiplicity ((updated_pairs m (n.*1) ++ n).*1) k =
  if covers (n.*1) k then multiplicity (n.*1) k else multiplicity (m.*1) k.
Proof.
  rewrite fmap_app, multiplicity_app, updated_pairs_multiplicity.
  destruct (covers (n.*1) k) eqn:E; [done|].
  apply covers_false_multiplicity in E. lia.
Qed.

Lemma updated_disjoint m n :
  regions_disjoint (m.*1) = true → regions_disjoint (n.*1) = true →
  regions_disjoint ((updated_pairs m (n.*1) ++ n).*1) = true.
Proof.
  rewrite !regions_disjoint_multiplicity. intros Hm Hn k.
  rewrite updated_multiplicity. by destruct (covers (n.*1) k).
Qed.

Lemma updated_covers m n k :
  covers ((updated_pairs m (n.*1) ++ n).*1) k =
  covers (n.*1) k || covers (m.*1) k.
Proof.
  rewrite (covers_multiplicity (_ ++ _).*1), updated_multiplicity.
  destruct (covers (n.*1) k) eqn:E; simpl.
  - by rewrite <- covers_multiplicity.
  - by rewrite <- covers_multiplicity.
Qed.

Lemma update_Ok m n dm dn :
  get_domain m = Ok dm → get_domain n = Ok dn →
  region_is_superset dm dn = true →
  update m n = Ok (updated_pairs m (n.*1) ++ n).
Proof. unfold update. intros -> -> Hs. simpl. by rewrite Hs. Qed.

Lemma update_inv m n u :
  update m n = Ok u →
  u = updated_pairs m (n.*1) ++ n ∧
  ∃ dm dn, get_domain m = Ok dm ∧ get_domain n = Ok dn ∧
           region_is_superset dm dn = true.
Proof.
unfold update. intros H. repeat exc_step. subst u. eauto 10.
Qed.

Lemma updated_domain m n dm dn :
  get_domain m = Ok dm → get_domain n = Ok dn →
  region_is_superset dm dn = true →
  ∃ d', get_domain (updated_pairs m (n.*1) ++ n) = Ok d' ∧
        ∀ k, region_contains d' k = region_contains dm k.
Proof.
  intros [Hmd Hmk]%get_domain_Ok [Hnd Hnk]%get_domain_Ok Hs.
  apply get_domain_intro; [by apply updated_disjoint|].
  intros k. rewrite updated_covers, <- Hmk, <- Hnk.
  rewrite region_is_superset_spec in Hs. specialize (Hs k).
  destruct (region_contains dn k); [by rewrite Hs|done].
Qed.
End region_map_facts.

(** ** Region maps as piecewise-constant functions *)

Section value_at_facts.
Context {P : protocol_t} `{!protocol_laws P}.
Context {value_t : Type} `{!EqDecision value_t}.
Implicit Types (m n : region_map_t P value_t) (r : region_t) (k : key_t).

Lemma value_at_app m n k :
  value_at (m ++ n) k =
  match value_at m k with Some v => Some v | None => value_at n k end.
Proof.
  induction m as [|[r v] m IH]; [done|]. simpl.
  by destruct (region_contains r k).
Qed.

Lemma value_at_None m k :
  value_at m k = None ↔ covers (m.*1) k = false.
Proof.
  induction m as [|[r v] m IH]; [done|].
  rewrite fmap_cons, covers_cons. simpl.
  by destruct (region_contains r k).
Qed.

Lemma value_at_Some_elem m k v :
  value_at m k = Some v →
  ∃ r, (r, v) ∈ m ∧ region_contains r k = true.
Proof.
  induction m as [|[r v'] m IH]; [done|]. simpl.
  destruct (region_contains r k) eqn:Hk.
  - intros [= ->]. exists r. split; [left|done].
  - intros (r' & Hin & Hk')%IH. exists r'. split; [by right|done].
Qed.

(** In a map whose entries are disjoint, the entry that holds a key
    decides the value there. *)
Lemma value_at_unique m k r v :
  multiplicity (m.*1) k ≤ 1 → (r, v) ∈ m → region_contains r k = true →
  value_at m k = Some v.
Proof.
  induction m as [|[r' v'] m IH]; intros Hmul Hin Hk.
  - by apply elem_of_nil in Hin.
  - rewrite fmap_cons, multiplicity_cons in Hmul. cbn [fst] in Hmul.
    simpl. apply elem_of_cons in Hin as [[= <- <-]|Hin].
    + by rewrite Hk.
    + destruct (region_contains r' k) eqn:Hk'.
      * assert (covers (m.*1) k = true) as Hc.
        { apply covers_true_elem. exists r. split; [|done].
          apply list_elem_of_fmap. by exists (r, v). }
        rewrite covers_multiplicity, bool_decide_eq_true in Hc. lia.
      * apply IH; [lia|done|done].
Qed.

Lemma value_at_masked_pairs r m k :
  value_at (masked_pairs r m) k =
  if region_contains r k then value_at m k else None.
Proof.
  induction m as [|[ri vi] m IH]; cbn [masked_pairs].
  - by destruct (region_contains r k).
  - destruct (region_is_empty (region_intersection ri r)) eqn:E;
      cbn [negb value_at]; rewrite IH.
    + rewrite region_is_empty_true in E. specialize (E k).
      rewrite region_intersection_spec in E.
      by destruct (region_contains ri k), (region_contains r k).
    + rewrite region_intersection_spec.
      by destruct (region_contains ri k), (region_contains r k).
Qed.

Lemma value_at_pieces (v : value_t) (pieces : list region_t) k :
  value_at ((λ j, (j, v)) <$> pieces) k =
  if covers pieces k then Some v else None.
Proof.
  induction pieces as [|j js IH]; [done|].
  rewrite fmap_cons, covers_cons. simpl.
  by destruct (region_contains j k).
Qed.

Lemma value_at_updated_pairs m (overlay : list region_t) k :
  value_at (updated_pairs m overlay) k =
  if covers overlay k then None else value_at m k.
Proof.
  induction m as [|[old v] m IH]; cbn [updated_pairs value_at].
  - by destruct (covers overlay k).
  - rewrite value_at_app, value_at_pieces, region_subtract_many_spec, IH.
    by destruct (region_contains old k), (covers overlay k).
Qed.

(** What [update] builds reads the new map where that is defined and the
    old map elsewhere. *)
Lemma value_at_updated m n k :
  value_at (updated_pairs m (n.*1) ++ n) k =
  if covers (n.*1) k then value_at n k else value_at m k.
Proof.
  rewrite value_at_app, value_at_updated_pairs.
  destruct (covers (n.*1) k) eqn:E; [done|].
  apply value_at_None in E. rewrite E. by destruct (value_at m k).
Qed.

Lemma slices_all_equal_spec (v : value_t) m :
  slices_all_equal v m = true ↔ ∀ rj vj, (rj, vj) ∈ m → vj = v.
Proof.
  induction m as [|[rj vj] m IH]; simpl.
  - split; [|done]. intros _ ?? Hin. by apply elem_of_nil in Hin.
  - case_bool_decide as Hne.
    + split; [done|]. intros H. destruct Hne. apply (H rj). left.
    + rewrite IH. split.
      * intros H rj' vj' [[= -> ->]|Hin]%elem_of_cons; [done|by eapply H].
      * intros H rj' vj' Hin. apply (H rj'). by right.
Qed.

Lemma elem_of_masked_pairs r m r' v :
  (r', v) ∈ masked_pairs r m ↔
  ∃ ri, (ri, v) ∈ m ∧ r' = region_intersection ri r ∧
        region_is_empty r' = false.
Proof.
  induction m as [|[ri vi] m IH]; cbn [masked_pairs].
  - split; [by intros ?%elem_of_nil|]. by intros (? & ?%elem_of_nil & _).
  - destruct (region_is_empty (region_intersection ri r)) eqn:E; cbn [negb].
    + rewrite IH. split.
      * intros (rj & Hin & Heq & Hne). exists rj. split; [by right|done].
      * intros (rj & [[= -> ->]|Hin]%elem_of_cons & -> & Hne);
          [congruence|]. eauto.
    + rewrite elem_of_cons, IH. split.
      * intros [[= -> ->]|(rj & Hin & Heq & Hne)].
        -- exists ri. split; [left|done].
        -- exists rj. split; [by right|done].
      * intros (rj & [[= -> ->]|Hin]%elem_of_cons & -> & Hne);
          [by left|]. right. eauto.
Qed.

(** The loop of [operator==] returns, and says whether overlapping
    entries of the two maps carry the same value. *)
Lemma eq_loop_spec m n dn :
  get_domain n = Ok dn →
  ∃ res, eq_loop m n = Ok res ∧
    (res = true ↔
     ∀ ri vi rj vj, (ri, vi) ∈ m → (rj, vj) ∈ n →
                    region_overlaps rj ri = true → vj = vi).
Proof.
  intros Hn. induction m as [|[ri vi] m (res & IH & Hres)]; cbn [eq_loop].
  - exists true. split; [done|]. split; [|done].
    intros _ ???? Hin. by apply elem_of_nil in Hin.
  - rewrite (mask_Ok ri n dn Hn). simpl.
    destruct (slices_all_equal vi (masked_pairs ri n)) eqn:Hs.
    + exists res. split; [done|]. rewrite Hres.
      rewrite slices_all_equal_spec in Hs. split.
      * intros H ri' vi' rj vj [[= -> ->]|Hin]%elem_of_cons Hj Hov.
        -- apply (Hs (region_intersection rj ri)).
           apply elem_of_masked_pairs. exists rj. split; [done|].
           split; [done|]. by apply negb_true_iff.
        -- by eapply H.
      * intros H ri' vi' rj vj Hin. apply H. by right.
    + exists false. split; [done|]. split; [done|]. intros H.
      assert (slices_all_equal vi (masked_pairs ri n) = true); [|congruence].
      apply slices_all_equal_spec. intros rj' vj
        (rj & Hin & -> & Hne)%elem_of_masked_pairs.
      apply (H ri vi rj vj); [left|done|]. by apply negb_true_iff.
Qed.

(** [operator==] returns on maps whose domains exist, and compares them as
    functions: the same domain and the same value at each of its keys. *)
Lemma region_map_eq_spec m n dm dn :
  get_domain m = Ok dm → get_domain n = Ok dn →
  ∃ res, region_map_eq m n = Ok res ∧
    (res = true ↔
     region_eqb dm dn = true ∧
     ∀ k, region_contains dm k = true → value_at m k = value_at n k).
Proof.
  intros Hm Hn. unfold region_map_eq. rewrite Hm, Hn. simpl.
  destruct (region_eqb dm dn) eqn:Heq; simpl.
  2:{ exists false. split; [done|]. split; [done|]. by intros [? _]. }
  destruct (eq_loop_spec m n dn Hn) as (res & Hloop & Hres).
  exists res. split; [done|]. rewrite Hres. clear Hloop Hres.
  rewrite region_eqb_spec in Heq.
  apply get_domain_Ok in Hm as [Hmd Hmk], Hn as [Hnd Hnk].
  rewrite regions_disjoint_multiplicity in Hmd, Hnd.
  split.
  - intros H. split; [done|]. intros k Hk.
    destruct (value_at m k) as [vi|] eqn:Hvi.
    2:{ apply value_at_None in Hvi. congruence. }
    destruct (value_at n k) as [vj|] eqn:Hvj.
    2:{ apply value_at_None in Hvj. rewrite <- Hnk, <- Heq in Hvj.
        congruence. }
    apply value_at_Some_elem in Hvi as (ri & Hi & Hki).
    apply value_at_Some_elem in Hvj as (rj & Hj & Hkj).
    f_equal. symmetry. apply (H ri vi rj vj); [done|done|].
    apply region_overlaps_true. eauto.
  - intros [_ H] ri vi rj vj Hi Hj (k & Hkj & Hki)%region_overlaps_true.
    assert (region_contains dm k = true) as Hk.
    { rewrite Hmk. apply covers_true_elem. exists ri. split; [|done].
      apply list_elem_of_fmap. by exists (ri, vi). }
    specialize (H k Hk).
    rewrite (value_at_unique m k ri vi), (value_at_unique n k rj vj) in H
      by done.
    congruence.
Qed.
End value_at_facts.

(** ** The dummy protocol obeys the laws of the region algebra *)

Section dummy_protocol_laws.
Import dummy_protocol_t.
Implicit Types (a b r : dummy_protocol_t.region_t) (k : string).
Implicit Types (rs : list dummy_protocol_t.region_t) (u : gset string).

Lemma dummy_region_contains r k :
  dummy_protocol_t.region_contains r k = true ↔ k ∈ keys r.
Proof. apply bool_decide_eq_true. Qed.

Lemma dummy_region_overlaps a b :
  region_overlaps (P:=dummy_protocol) a b = false ↔ keys a ## keys b.
Proof.
  unfold region_overlaps, region_is_empty. simpl.
  unfold dummy_protocol_t.region_is_superset. simpl.
  rewrite negb_false_iff, bool_decide_eq_true. set_solver.
Qed.

Lemma dummy_covers rs k :
  covers (P:=dummy_protocol) rs k = true ↔ k ∈ ⋃ (keys <$> rs).
Proof.
  induction rs as [|r rs IH]; simpl.
  - set_solver.
  - rewrite orb_true_iff, IH, dummy_region_contains. set_solver.
Qed.

Lemma dummy_regions_disjoint_cons r rs :
  regions_disjoint (P:=dummy_protocol) (r :: rs) = true ↔
  keys r ## ⋃ (keys <$> rs) ∧ regions_disjoint (P:=dummy_protocol) rs = true.
Proof.
  cbn [regions_disjoint]. rewrite andb_true_iff, forallb_forall.
  apply and_iff_compat_r. split.
  - intros H k Hk (X & (r' & -> & Hr')%list_elem_of_fmap & Hk')
      %elem_of_union_list.
    apply list_elem_of_In, H, negb_true_iff, dummy_region_overlaps in Hr'.
    set_solver.
  - intros H r' Hr'%list_elem_of_In.
    apply negb_true_iff, dummy_region_overlaps. intros k Hk Hk'.
    apply (H k Hk), elem_of_union_list. exists (keys r').
    split; [|done]. apply list_elem_of_fmap. eauto.
Qed.

Lemma dummy_region_join_from_Ok rs u :
  regions_disjoint (P:=dummy_protocol) rs = true →
  u ## ⋃ (keys <$> rs) →
  region_join_from u rs = Ok (mk_region (u ∪ ⋃ (keys <$> rs))).
Proof.
  revert u. induction rs as [|r rs IH]; intros u Hd Hu; simpl.
  - do 2 f_equal. set_solver.
  - apply dummy_regions_disjoint_cons in Hd as [Hr Hd].
    rewrite bool_decide_eq_true_2 by set_solver.
    rewrite IH; [|done|set_solver]. do 2 f_equal. set_solver.
Qed.

Lemma dummy_region_join_from_inv rs u d :
  region_join_from u rs = Ok d →
  regions_disjoint (P:=dummy_protocol) rs = true ∧ u ## ⋃ (keys <$> rs).
Proof.
  revert u. induction rs as [|r rs IH]; intros u; simpl.
  - intros _. split; [done|set_solver].
  - case_bool_decide as Hr; [|done]. intros [Hd Hu]%IH. split.
    + apply dummy_regions_disjoint_cons. split; [set_solver|done].
    + set_solver.
Qed.

Lemma dummy_region_join_from_throws rs u e :
  region_join_from u rs = Throw e → e = bad_join_exc_t.
Proof.
  revert u. induction rs as [|r rs IH]; intros u; simpl; [done|].
  case_bool_decide; [apply IH|congruence].
Qed.

Lemma dummy_region_not_superset a b :
  dummy_protocol_t.region_is_superset a b = false →
  ∃ k, dummy_protocol_t.region_contains b k = true ∧
       dummy_protocol_t.region_contains a k = false.
Proof.
  intros H%bool_decide_eq_false.
  assert (¬ set_Forall (λ k, k ∈ keys a) (keys b)) as Hn by set_solver.
  apply not_set_Forall_Exists in Hn as (k & Hk & Hka); [|apply _].
  exists k. split; [by apply bool_decide_eq_true|].
  by apply bool_decide_eq_false.
Qed.

#[global] Instance dummy_protocol_laws : protocol_laws dummy_protocol.
Proof.
  split; simpl.
  - intros k. apply bool_decide_eq_false. set_solver.
  - intros a b. unfold dummy_protocol_t.region_eqb.
    rewrite bool_decide_eq_true. split.
    { intros H k. unfold dummy_protocol_t.region_contains. by rewrite H. }
    intros H. apply set_eq. intros k. specialize (H k).
    rewrite <- !dummy_region_contains. by rewrite H.
  - intros a b. unfold dummy_protocol_t.region_is_superset.
    rewrite bool_decide_eq_true. split.
    + intros H k. rewrite !dummy_region_contains. apply H.
    + intros H k. rewrite <- !dummy_region_contains. apply H.
  - apply dummy_region_not_superset.
  - intros a b k. unfold dummy_protocol_t.region_contains. simpl.
    apply eq_true_iff_eq. rewrite andb_true_iff, !bool_decide_eq_true.
    set_solver.
  - intros rs Hd. unfold dummy_protocol_t.region_join.
    destruct (region_join_from ∅ rs) as [d|e] eqn:E.
    + apply dummy_region_join_from_inv in E as [E _]. congruence.
    + by apply dummy_region_join_from_throws in E as ->.
  - intros rs d Hj k. unfold dummy_protocol_t.region_join in Hj.
    pose proof (dummy_region_join_from_inv _ _ _ Hj) as [Hd Hu].
    rewrite (dummy_region_join_from_Ok _ _ Hd Hu) in Hj.
    injection Hj as <-. apply eq_true_iff_eq.
    rewrite dummy_covers, dummy_region_contains. simpl. set_solver.
  - intros rs _ Hd _. unfold dummy_protocol_t.region_join.
    exists (mk_region (∅ ∪ ⋃ (keys <$> rs))).
    apply dummy_region_join_from_Ok; [done|set_solver].
  - intros rs e Hj. left. by eapply dummy_region_join_from_throws.
  - intros a bs k. unfold dummy_protocol_t.region_subtract_many.
    apply eq_true_iff_eq.
    rewrite andb_true_iff, negb_true_iff, <- not_true_iff_false.
    rewrite !dummy_covers. simpl.
    rewrite orb_false_r, !dummy_region_contains. simpl. set_solver.
  - intros a bs. done.
Qed.
End dummy_protocol_laws.

(** ** Region maps: the invariants *)

Section region_map_properties.
Context {P : protocol_t} `{!protocol_laws P}.
Context {value_t : Type} `{!EqDecision value_t}.
Implicit Types (m n : region_map_t P value_t) (r : region_t) (k : key_t).

Lemma pairwise_disjoint_regions m :
  pairwise_disjoint m ↔ regions_disjoint (m.*1) = true.
Proof.
  rewrite regions_disjoint_lookup. unfold pairwise_disjoint. split.
  - intros H i j ri rj Hij Hi Hj. rewrite list_lookup_fmap in Hi, Hj.
    apply fmap_Some in Hi as ([ri' vi] & Ei & ->).
    apply fmap_Some in Hj as ([rj' vj] & Ej & ->).
    by apply (H i j ri' vi rj' vj).
  - intros H i j ri vi rj vj Hij Hi Hj.
    apply (H i j ri rj Hij).
    + rewrite list_lookup_fmap, fmap_Some. by exists (ri, vi).
    + rewrite list_lookup_fmap, fmap_Some. by exists (rj, vj).
Qed.

Lemma get_domain_pairwise_disjoint m d :
  get_domain m = Ok d → pairwise_disjoint m.
Proof. intros [H _]%get_domain_Ok. by apply pairwise_disjoint_regions. Qed.

(** The vector [mask] builds has disjoint entries when the map has. *)
Lemma masked_pairs_pairwise_disjoint r m :
  pairwise_disjoint m → pairwise_disjoint (masked_pairs r m).
Proof. rewrite !pairwise_disjoint_regions. apply masked_pairs_disjoint. Qed.

(** The vector [update] builds has disjoint entries when both maps have. *)
Lemma updated_pairwise_disjoint m n :
  pairwise_disjoint m → pairwise_disjoint n →
  pairwise_disjoint (updated_pairs m (n.*1) ++ n).
Proof. rewrite !pairwise_disjoint_regions. apply updated_disjoint. Qed.

Lemma single_domain r (v : value_t) :
  ∃ d, get_domain (region_map_t_single r v) = Ok d ∧
       ∀ k, region_contains d k = region_contains r k.
Proof.
  apply get_domain_intro; [done|]. intros k. simpl. by rewrite orb_false_r.
Qed.

(** A domain violation is an assertion failure of [update]. *)
Lemma update_domain_violation m n dm dn :
  get_domain m = Ok dm → get_domain n = Ok dn →
  region_is_superset dm dn = false →
  update m n = Throw assertion_failure.
Proof. unfold update. intros -> -> Hs. simpl. by rewrite Hs. Qed.

(** Without a domain on either side, [operator==] throws what
    [get_domain] throws. *)
Lemma region_map_eq_without_domain m n e :
  get_domain m = Throw e ∨ (is_Ok (get_domain m) ∧ get_domain n = Throw e) →
  region_map_eq m n = Throw e.
Proof.
  unfold region_map_eq. intros [->|[[d ->] ->]]; done.
Qed.

(** C1. When the domain of [m] holds the domain of [n], [update m n]
    returns a map whose domain is the domain [m] had. *)
Theorem update_preserves_domain m n dm dn :
  get_domain m = Ok dm → get_domain n = Ok dn →
  region_is_superset dm dn = true →
  ∃ u d', update m n = Ok u ∧ get_domain u = Ok d' ∧
          region_eqb d' dm = true.
Proof.
  intros Hm Hn Hs.
  destruct (updated_domain m n dm dn Hm Hn Hs) as (d' & Hd' & Hk).
  exists (updated_pairs m (n.*1) ++ n), d'.
  split; [by eapply update_Ok|]. split; [done|].
  by apply region_eqb_spec.
Qed.

(** C2. When the domain of [m] holds the domain of [n], masking
    [update m n] by the domain of [n] gives a map that [operator==] finds
    equal to [n]. *)
Theorem update_then_mask_recovers_new m n dm dn :
  get_domain m = Ok dm → get_domain n = Ok dn →
  region_is_superset dm dn = true →
  ∃ u masked, update m n = Ok u ∧ mask dn u = Ok masked ∧
              region_map_eq masked n = Ok true.
Proof.
  intros Hm Hn Hs.
  destruct (updated_domain m n dm dn Hm Hn Hs) as (d' & Hd' & Hk).
  set (u := updated_pairs m (n.*1) ++ n) in *.
  destruct (masked_pairs_domain dn u d' Hd') as (d'' & Hd'' & Hk'').
  exists u, (masked_pairs dn u).
  split; [by eapply update_Ok|]. split; [by eapply mask_Ok|].
  destruct (region_map_eq_spec (masked_pairs dn u) n d'' dn Hd'' Hn)
    as (res & -> & Hres).
  f_equal. apply Hres. clear res Hres.
  rewrite region_is_superset_spec in Hs.
  assert (∀ k, region_contains d'' k = region_contains dn k) as Hsame.
  { intros k. rewrite Hk'', Hk. specialize (Hs k).
    destruct (region_contains dn k); [by rewrite Hs|by rewrite andb_false_r]. }
  split; [by apply region_eqb_spec|].
  intros k Hin. rewrite Hsame in Hin.
  rewrite value_at_masked_pairs, Hin. unfold u.
  rewrite value_at_updated.
  apply get_domain_Ok in Hn as [_ Hnk]. by rewrite <- Hnk, Hin.
Qed.

(** C3. Pairwise disjointness of the entries is kept by every operation
    that produces a region map: whatever [mask], [update] (with an argument
    of disjoint entries), [set] and [region_map_transform] return has
    pairwise disjoint entries, and they do return when the domain of the
    map exists and, for [update] and [set], holds the new domain. *)
Theorem operations_keep_entries_disjoint m :
  pairwise_disjoint m →
  (∀ r m', mask r m = Ok m' → pairwise_disjoint m') ∧
  (∀ n u, pairwise_disjoint n → update m n = Ok u → pairwise_disjoint u) ∧
  (∀ r v u, set r v m = Ok u → pairwise_disjoint u) ∧
  (∀ (new_t : Type) (f : value_t → new_t) t,
     region_map_transform m f = Ok t → pairwise_disjoint t) ∧
  (∀ d, get_domain m = Ok d →
     (∀ r, is_Ok (mask r m)) ∧
     (∀ n dn, get_domain n = Ok dn → region_is_superset d dn = true →
              is_Ok (update m n)) ∧
     (∀ r v, region_is_superset d r = true → is_Ok (set r v m)) ∧
     (∀ (new_t : Type) (f : value_t → new_t),
        is_Ok (region_map_transform m f))).
Proof.
  intros Hm. split; [|split; [|split; [|split]]];
    [| | | |intros d Hd; split; [|split; [|split]]].
  - intros r m' ->%mask_inv. by apply masked_pairs_pairwise_disjoint.
  - intros n u Hn [-> _]%update_inv. by apply updated_pairwise_disjoint.
  - intros r v u [-> (_ & dn & _ & Hn & _)]%update_inv.
    apply updated_pairwise_disjoint; [done|].
    by eapply get_domain_pairwise_disjoint.
  - intros new_t f t. unfold region_map_transform, region_map_t_range.
    intros Ht. destruct (get_domain _) eqn:E; [|done].
    injection Ht as <-. intros i j ri vi rj vj Hij Hi Hj.
    rewrite list_lookup_fmap in Hi, Hj.
    apply fmap_Some in Hi as ([ri' vi'] & Ei & [= -> _]).
    apply fmap_Some in Hj as ([rj' vj'] & Ej & [= -> _]).
    by apply (Hm i j ri' vi' rj' vj').
  - intros r. eexists. by eapply mask_Ok.
  - intros n dn Hn Hs. eexists. by eapply update_Ok.
  - intros r v Hs. destruct (single_domain r v) as (dr & Hdr & Hk).
    eexists. eapply update_Ok; [done|done|].
    rewrite region_is_superset_spec in Hs |- *.
    intros k. rewrite Hk. apply Hs.
  - intros new_t f. unfold region_map_transform, region_map_t_range.
    assert (((λ it, (it.1, f it.2)) <$> m).*1 = m.*1) as Hfst.
    { rewrite <- list_fmap_compose. by apply list_fmap_ext. }
    unfold get_domain in *. rewrite Hfst, Hd. by eexists.
Qed.

(** C4. On maps whose domains exist, [operator==] returns, and returns
    true exactly when the domains are equal and the maps have the same
    value at every key of the domain; so it is true of two maps that
    stand for the same function, however split or ordered, and does not
    depend on which operand is enumerated. *)
Theorem region_map_eq_compares_functions m n dm dn :
  get_domain m = Ok dm → get_domain n = Ok dn →
  is_Ok (region_map_eq m n) ∧
  (region_map_eq m n = Ok true ↔
   region_eqb dm dn = true ∧
   ∀ k, region_contains dm k = true → value_at m k = value_at n k) ∧
  ((∀ k, value_at m k = value_at n k) → region_map_eq m n = Ok true) ∧
  region_map_eq m n = region_map_eq n m.
Proof.
  intros Hm Hn.
  destruct (region_map_eq_spec m n dm dn Hm Hn) as (res & Hmn & Hres).
  destruct (region_map_eq_spec n m dn dm Hn Hm) as (res' & Hnm & Hres').
  split; [by exists res|]. split; [|split].
  - rewrite Hmn, <- Hres. split; congruence.
  - intros Hval. rewrite Hmn. f_equal. apply Hres. split; [|by auto].
    apply region_eqb_spec. intros k.
    apply get_domain_Ok in Hm as [_ Hmk], Hn as [_ Hnk].
    rewrite Hmk, Hnk. specialize (Hval k).
    destruct (covers (m.*1) k) eqn:Ec.
    + destruct (covers (n.*1) k) eqn:Ec'; [done|].
      apply value_at_None in Ec'. rewrite Ec' in Hval.
      apply value_at_None in Hval. congruence.
    + apply value_at_None in Ec. rewrite Ec in Hval. symmetry in Hval.
      apply value_at_None in Hval. congruence.
  - rewrite Hmn, Hnm. f_equal.
    apply eq_true_iff_eq. rewrite Hres, Hres', !region_eqb_spec.
    split; intros [Heq Hval]; split; try (intros k; by rewrite Heq).
    + intros k Hk. symmetry. apply Hval. by rewrite Heq.
    + intros k Hk. symmetry. apply Hval. by rewrite Heq.
Qed.

(** C5. Masking twice is masking by the intersection, up to [operator==],
    and the domain of [mask r m] is the intersection of [r] with the
    domain of [m]. *)
Theorem mask_composes_by_intersection m d (a b r : region_t) :
  get_domain m = Ok d →
  (∃ ma mab mi, mask a m = Ok ma ∧ mask b ma = Ok mab ∧
                mask (region_intersection a b) m = Ok mi ∧
                region_map_eq mab mi = Ok true) ∧
  (∃ mr dr, mask r m = Ok mr ∧ get_domain mr = Ok dr ∧
            region_eqb dr (region_intersection r d) = true).
Proof.
  intros Hm. split.
  - destruct (masked_pairs_domain a m d Hm) as (da & Hda & Hka).
    destruct (masked_pairs_domain b _ da Hda) as (dab & Hdab & Hkab).
    destruct (masked_pairs_domain (region_intersection a b) m d Hm)
      as (di & Hdi & Hki).
    exists (masked_pairs a m), (masked_pairs b (masked_pairs a m)),
      (masked_pairs (region_intersection a b) m).
    split; [by eapply mask_Ok|]. split; [by eapply mask_Ok|].
    split; [by eapply mask_Ok|].
    destruct (region_map_eq_spec _ _ dab di Hdab Hdi) as (res & -> & Hres).
    f_equal. apply Hres. split.
    + apply region_eqb_spec. intros k.
      rewrite Hkab, Hka, Hki, region_intersection_spec.
      by rewrite andb_assoc.
    + intros k _. rewrite !value_at_masked_pairs, region_intersection_spec.
      by destruct (region_contains a k), (region_contains b k).
  - destruct (masked_pairs_domain r m d Hm) as (dr & Hdr & Hkr).
    exists (masked_pairs r m), dr.
    split; [by eapply mask_Ok|]. split; [done|].
    apply region_eqb_spec. intros k.
    rewrite Hkr, region_intersection_spec. apply andb_comm.
Qed.
End region_map_properties.

(** ** The region-map properties at the dummy protocol *)

Lemma update_preserves_domain_witness :
  get_domain example_old = Ok (dummy_region ["a"; "b"; "c"; "d"]%string) ∧
  get_domain example_new = Ok (dummy_region ["b"; "d"]%string) ∧
  region_is_superset (dummy_region ["a"; "b"; "c"; "d"]%string)
    (dummy_region ["b"; "d"]%string) = true ∧
  ∃ u d', update example_old example_new = Ok u ∧ get_domain u = Ok d' ∧
          region_eqb d' (dummy_region ["a"; "b"; "c"; "d"]%string) = true.
Proof.
  assert (get_domain example_old
          = Ok (dummy_region ["a"; "b"; "c"; "d"]%string)) as Hm
    by (vm_compute; reflexivity).
  assert (get_domain example_new = Ok (dummy_region ["b"; "d"]%string)) as Hn
    by (vm_compute; reflexivity).
  assert (region_is_superset (dummy_region ["a"; "b"; "c"; "d"]%string)
            (dummy_region ["b"; "d"]%string) = true) as Hs
    by (vm_compute; reflexivity).
  split; [exact Hm|]. split; [exact Hn|]. split; [exact Hs|].
  exact (update_preserves_domain example_old example_new _ _ Hm Hn Hs).
Defined.

Lemma update_then_mask_recovers_new_witness :
  get_domain example_old = Ok (dummy_region ["a"; "b"; "c"; "d"]%string) ∧
  get_domain example_new = Ok (dummy_region ["b"; "d"]%string) ∧
  region_is_superset (dummy_region ["a"; "b"; "c"; "d"]%string)
    (dummy_region ["b"; "d"]%string) = true ∧
  ∃ u masked, update example_old example_new = Ok u ∧
              mask (dummy_region ["b"; "d"]%string) u = Ok masked ∧
              region_map_eq masked example_new = Ok true.
Proof.
  assert (get_domain example_old
          = Ok (dummy_region ["a"; "b"; "c"; "d"]%string)) as Hm
    by (vm_compute; reflexivity).
  assert (get_domain example_new = Ok (dummy_region ["b"; "d"]%string)) as Hn
    by (vm_compute; reflexivity).
  assert (region_is_superset (dummy_region ["a"; "b"; "c"; "d"]%string)
            (dummy_region ["b"; "d"]%string) = true) as Hs
    by (vm_compute; reflexivity).
  split; [exact Hm|]. split; [exact Hn|]. split; [exact Hs|].
  exact (update_then_mask_recovers_new example_old example_new _ _ Hm Hn Hs).
Defined.

Lemma operations_keep_entries_disjoint_witness :
  pairwise_disjoint example_new ∧
  (∀ r m', mask r example_new = Ok m' → pairwise_disjoint m') ∧
  (∀ n u, pairwise_disjoint n → update example_new n = Ok u →
          pairwise_disjoint u) ∧
  (∀ r v u, set r v example_new = Ok u → pairwise_disjoint u) ∧
  (∀ (new_t : Type) (f : nat → new_t) t,
     region_map_transform example_new f = Ok t → pairwise_disjoint t) ∧
  (∀ d, get_domain example_new = Ok d →
     (∀ r, is_Ok (mask r example_new)) ∧
     (∀ n dn, get_domain n = Ok dn → region_is_superset d dn = true →
              is_Ok (update example_new n)) ∧
     (∀ r v, region_is_superset d r = true → is_Ok (set r v example_new)) ∧
     (∀ (new_t : Type) (f : nat → new_t),
        is_Ok (region_map_transform example_new f))).
Proof.
  assert (pairwise_disjoint example_new) as Hd.
  { apply pairwise_disjoint_regions. vm_compute. reflexivity. }
  split; [exact Hd|].
  exact (operations_keep_entries_disjoint example_new Hd).
Defined.

(** The update scenario: the domain stays, a mask inside an overlaid
    region has the one new value, a mask outside has the old one. *)
Example update_scenario :
  (u ← update example_scenario_old example_scenario_new;
   d ← get_domain u;
   inside ← mask (dummy_region ["b"; "c"]%string) u;
   outside ← mask (dummy_region ["d"]%string) u;
   Ok (d, inside, outside))
  = Ok (dummy_region ["a"; "b"; "c"; "d"; "e"; "f"]%string,
        [(dummy_region ["b"; "c"]%string, 1)],
        [(dummy_region ["d"]%string, 0)]).
Proof. vm_compute. reflexivity. Qed.

(** An overlay that reaches outside the domain fails the assertion, and
    an overlay with overlapping regions has no domain. *)
Example update_rejects :
  update example_old [(dummy_region ["b"; "e"]%string, 1)]
  = Throw assertion_failure ∧
  update example_old
    [(dummy_region ["b"]%string, 1); (dummy_region ["b"; "c"]%string, 2)]
  = Throw bad_join_exc_t.
Proof. vm_compute. done. Qed.

(** Two splits of one function compare equal, in either order. *)
Example region_map_eq_ignores_fragmentation :
  region_map_eq example_split example_whole = Ok true ∧
  region_map_eq example_whole example_split = Ok true ∧
  region_map_eq example_split (reverse example_split) = Ok true.
Proof. vm_compute. done. Qed.

Lemma region_map_eq_compares_functions_witness :
  get_domain example_split = Ok (dummy_region ["a"; "b"; "c"; "d"]%string) ∧
  get_domain example_whole = Ok (dummy_region ["a"; "b"; "c"; "d"]%string) ∧
  is_Ok (region_map_eq example_split example_whole) ∧
  (region_map_eq example_split example_whole = Ok true ↔
   region_eqb (dummy_region ["a"; "b"; "c"; "d"]%string)
     (dummy_region ["a"; "b"; "c"; "d"]%string) = true ∧
   ∀ k, region_contains (dummy_region ["a"; "b"; "c"; "d"]%string) k = true →
        value_at example_split k = value_at example_whole k) ∧
  ((∀ k, value_at example_split k = value_at example_whole k) →
   region_map_eq example_split example_whole = Ok true) ∧
  region_map_eq example_split example_whole
  = region_map_eq example_whole example_split.
Proof.
  assert (get_domain example_split
          = Ok (dummy_region ["a"; "b"; "c"; "d"]%string)) as Hm
    by (vm_compute; reflexivity).
  assert (get_domain example_whole
          = Ok (dummy_region ["a"; "b"; "c"; "d"]%string)) as Hn
    by (vm_compute; reflexivity).
  split; [exact Hm|]. split; [exact Hn|].
  exact (region_map_eq_compares_functions example_split example_whole _ _
           Hm Hn).
Defined.

Lemma mask_composes_by_intersection_witness :
  get_domain example_old = Ok (dummy_region ["a"; "b"; "c"; "d"]%string) ∧
  (∃ ma mab mi,
     mask (dummy_region ["a"; "b"; "c"]%string) example_old = Ok ma ∧
     mask (dummy_region ["b"; "c"; "x"]%string) ma = Ok mab ∧
     mask (region_intersection (dummy_region ["a"; "b"; "c"]%string)
             (dummy_region ["b"; "c"; "x"]%string)) example_old = Ok mi ∧
     region_map_eq mab mi = Ok true) ∧
  (∃ mr dr, mask (dummy_region ["c"; "z"]%string) example_old = Ok mr ∧
            get_domain mr = Ok dr ∧
            region_eqb dr (region_intersection (dummy_region ["c"; "z"]%string)
                             (dummy_region ["a"; "b"; "c"; "d"]%string))
            = true).
Proof.
  assert (get_domain example_old
          = Ok (dummy_region ["a"; "b"; "c"; "d"]%string)) as Hm
    by (vm_compute; reflexivity).
  split; [exact Hm|].
  exact (mask_composes_by_intersection example_old _
           (dummy_region ["a"; "b"; "c"]%string)
           (dummy_region ["b"; "c"; "x"]%string)
           (dummy_region ["c"; "z"]%string) Hm).
Defined.

(** ** Store views *)

Section store_view_properties.
Context {P : protocol_t} `{!protocol_laws P}.
Context {binary_blob_t : Type} `{!EqDecision binary_blob_t}.
Implicit Types (s g new : metainfo_t P binary_blob_t) (r : region_t).

Lemma store_subview_t_inv {store_state : Type}
    (parent : store_view_t P binary_blob_t store_state) r sub :
  store_subview_t parent r = Ok sub →
  region_is_superset (get_region parent) r = true ∧ sub = subview_of parent r.
Proof.
  unfold store_subview_t. intros H. by repeat exc_step.
Qed.

(** Masking a metainfo whose domain holds the region leaves the region as
    domain. *)
Lemma masked_pairs_domain_within r g dg :
  get_domain g = Ok dg → region_is_superset dg r = true →
  ∃ d, get_domain (masked_pairs r g) = Ok d ∧
       ∀ k, region_contains d k = region_contains r k.
Proof.
  intros Hg Hs. destruct (masked_pairs_domain r g dg Hg) as (d & Hd & Hk).
  exists d. split; [done|]. intros k. rewrite Hk.
  rewrite region_is_superset_spec in Hs. specialize (Hs k).
  destruct (region_contains r k); [by rewrite Hs|by rewrite andb_false_r].
Qed.

Lemma region_is_superset_eqb (a b c : region_t) :
  region_eqb a b = true → region_is_superset b c = true →
  region_is_superset a c = true.
Proof.
  rewrite region_eqb_spec, !region_is_superset_spec. intros Hab Hbc k Hk.
  rewrite Hab. by apply Hbc.
Qed.

Lemma region_is_superset_trans (a b c : region_t) :
  region_is_superset a b = true → region_is_superset b c = true →
  region_is_superset a c = true.
Proof. rewrite !region_is_superset_spec. naive_solver. Qed.

(** C7. A subview over a parent whose region holds the subregion, in a
    state in which the parent's [get_metainfo] has the parent's region as
    the domain of its result: the subview's [get_metainfo] returns the
    parent's metainfo masked to the subregion, and the domain of what it
    returns is the subregion. *)
Theorem subview_get_metainfo_masks_parent {store_state : Type}
    (parent : store_view_t P binary_blob_t store_state) r
    (st : store_state) pm pd :
  region_is_superset (get_region parent) r = true →
  get_metainfo parent st = Ok pm → get_domain pm = Ok pd →
  region_eqb pd (get_region parent) = true →
  ∃ sub m d, store_subview_t parent r = Ok sub ∧ get_region sub = r ∧
             get_metainfo sub st = Ok m ∧ mask r pm = Ok m ∧
             get_domain m = Ok d ∧ region_eqb d (get_region sub) = true.
Proof.
  intros Hs Hpm Hpd Heq.
  destruct (masked_pairs_domain_within r pm pd Hpd) as (d & Hd & Hk).
  { by eapply region_is_superset_eqb. }
  unfold store_subview_t. rewrite Hs. simpl.
  eexists _, (masked_pairs r pm), d. split; [done|]. simpl.
  rewrite Hpm. simpl. rewrite (mask_Ok r pm pd Hpd).
  repeat split; try done. by apply region_eqb_spec.
Qed.

(** A metainfo whose domain is the view's region differs, for
    [operator==], from every metainfo over another domain: the postcondition
    of [get_metainfo] leaves no room for the equality when the new domain is
    a strict part of the region. *)
Lemma get_metainfo_postcondition_excludes {store_state : Type}
    (view : store_view_t P binary_blob_t store_state) st g new dn :
  get_metainfo_postcondition view st → get_metainfo view st = Ok g →
  get_domain new = Ok dn → region_eqb dn (get_region view) = false →
  region_map_eq g new = Ok false.
Proof.
  intros (g' & dg & Hg' & Hdg & Heq) Hg Hn Hne.
  rewrite Hg in Hg'. injection Hg' as <-.
  unfold region_map_eq. rewrite Hdg, Hn. simpl.
  destruct (region_eqb dg dn) eqn:E; [|done]. exfalso.
  rewrite region_eqb_spec in Heq, E.
  assert (region_eqb dn (get_region view) = true); [|congruence].
  apply region_eqb_spec. intros k. by rewrite <- E, Heq.
Qed.
End store_view_properties.

(** ** The store-view properties at the dummy protocol *)

Lemma subview_get_metainfo_masks_parent_witness :
  region_is_superset (get_region example_store)
    example_subregion = true ∧
  get_metainfo example_store example_metainfo
  = Ok example_metainfo ∧
  get_domain example_metainfo = Ok example_store_region ∧
  region_eqb example_store_region
    (get_region example_store) = true ∧
  ∃ sub m d,
    store_subview_t example_store example_subregion = Ok sub ∧
    get_region sub = example_subregion ∧
    get_metainfo sub example_metainfo = Ok m ∧
    mask example_subregion example_metainfo = Ok m ∧
    get_domain m = Ok d ∧ region_eqb d (get_region sub) = true.
Proof.
  assert (region_is_superset (get_region example_store)
            example_subregion = true) as Hs by (vm_compute; reflexivity).
  assert (get_metainfo example_store example_metainfo
          = Ok example_metainfo) as Hg by reflexivity.
  assert (get_domain example_metainfo = Ok example_store_region) as Hd
    by (vm_compute; reflexivity).
  assert (region_eqb example_store_region
            (get_region example_store) = true) as He
    by (vm_compute; reflexivity).
  split; [exact Hs|]. split; [exact Hg|]. split; [exact Hd|].
  split; [exact He|].
  exact (subview_get_metainfo_masks_parent example_store
           example_subregion example_metainfo example_metainfo
           example_store_region Hs Hg Hd He).
Defined.

(** ** The master's mailbox handlers *)

Section master_properties.
Import master_t.
Context {read_t read_response_t write_t write_response_t : Type}.
Context {order_token_t address_t : Type}.
Context (what : exception → string).
Implicit Types
  (m : @master_t.master_t read_t read_response_t write_t write_response_t
         order_token_t).

(** C8. A handler called with a lock of the master's drainer, as the
    mailboxes call it: when the dispatcher returns a response the handler
    sends that response to the reply address; when the dispatcher throws
    [mirror_lost_exc_t] or [insufficient_mirrors_exc_t] it sends the
    exception's string there instead; either way it sends this one message
    and returns, no exception leaves it. *)
Theorem handlers_reply_and_do_not_throw m (keepalive : lock_t)
    (response_address : address_t) (otok : order_token_t) :
  held_drainer keepalive = drainer m →
  (∀ rd response,
     read (mirror_dispatcher m) rd otok = Ok response →
     on_read what m rd otok response_address keepalive
     = (Ok tt, [read_reply response_address (inl response)])) ∧
  (∀ rd e,
     read (mirror_dispatcher m) rd otok = Throw e →
     e = mirror_lost_exc_t ∨ e = insufficient_mirrors_exc_t →
     on_read what m rd otok response_address keepalive
     = (Ok tt, [read_reply response_address (inr (what e))])) ∧
  (∀ wr response,
     write (mirror_dispatcher m) wr otok = Ok response →
     on_write what m wr otok response_address keepalive
     = (Ok tt, [write_reply response_address (inl response)])) ∧
  (∀ wr e,
     write (mirror_dispatcher m) wr otok = Throw e →
     e = mirror_lost_exc_t ∨ e = insufficient_mirrors_exc_t →
     on_write what m wr otok response_address keepalive
     = (Ok tt, [write_reply response_address (inr (what e))])) ∧
  (∀ rd, read_mailbox what m rd otok response_address
         = on_read what m rd otok response_address keepalive) ∧
  (∀ wr, write_mailbox what m wr otok response_address
         = on_write what m wr otok response_address keepalive).
Proof.
  intros Hheld.
  assert (assert_is_holding keepalive (drainer m) = Ok tt) as Hassert.
  { unfold assert_is_holding. by rewrite bool_decide_eq_true_2. }
  assert (keepalive = {| held_drainer := drainer m |}) as Hlock.
  { destruct keepalive. simpl in Hheld. by subst. }
  split; [|split; [|split; [|split; [|split]]]].
  - intros rd response Hr. unfold on_read. by rewrite Hassert, Hr.
  - intros rd e Hr [-> | ->]; unfold on_read; by rewrite Hassert, Hr.
  - intros wr response Hw. unfold on_write. by rewrite Hassert, Hw.
  - intros wr e Hw [-> | ->]; unfold on_write; by rewrite Hassert, Hw.
  - intros rd. unfold read_mailbox. by rewrite Hlock.
  - intros wr. unfold write_mailbox. by rewrite Hlock.
Qed.
End master_properties.

(** The three kinds of reply, at the example master. *)
Example master_replies :
  master_t.read_mailbox example_what example_master 0 0 9
  = (Ok tt, [master_t.read_reply 9 (inl 42)]) ∧
  master_t.read_mailbox example_what example_master 1 0 9
  = (Ok tt, [master_t.read_reply 9 (inr "mirror lost"%string)]) ∧
  master_t.write_mailbox example_what example_master 2 0 9
  = (Ok tt, [master_t.write_reply 9 (inr "insufficient mirrors"%string)]).
Proof. done. Qed.

Lemma handlers_reply_and_do_not_throw_witness :
  master_t.held_drainer {| master_t.held_drainer := 5 |}
  = master_t.drainer example_master ∧
  master_t.read (master_t.mirror_dispatcher example_master) 0 0 = Ok 42 ∧
  master_t.on_read example_what example_master 0 0 9
    {| master_t.held_drainer := 5 |}
  = (Ok tt, [master_t.read_reply 9 (inl 42)]) ∧
  master_t.write (master_t.mirror_dispatcher example_master) 1 0
  = Throw mirror_lost_exc_t ∧
  master_t.on_write example_what example_master 1 0 9
    {| master_t.held_drainer := 5 |}
  = (Ok tt, [master_t.write_reply 9 (inr (example_what mirror_lost_exc_t))]).
Proof.
  assert (master_t.held_drainer {| master_t.held_drainer := 5 |}
          = master_t.drainer example_master) as Hheld by reflexivity.
  assert (master_t.read (master_t.mirror_dispatcher example_master) 0 0
          = Ok 42) as Hr by reflexivity.
  assert (master_t.write (master_t.mirror_dispatcher example_master) 1 0
          = Throw mirror_lost_exc_t) as Hw by reflexivity.
  pose proof (handlers_reply_and_do_not_throw example_what example_master
                {| master_t.held_drainer := 5 |} 9 0 Hheld)
    as (Hread & _ & _ & Hwrite & _).
  split; [exact Hheld|]. split; [exact Hr|].
  split; [exact (Hread 0 42 Hr)|]. split; [exact Hw|].
  exact (Hwrite 1 mirror_lost_exc_t Hw (or_introl eq_refl)).
Defined.

(** ** The registrant *)

Section registrant_properties.
Import registrant_t.
Context {data_t peer_id_t registration_id_t address_t : Type}.
Context `{!EqDecision registration_id_t, !EqDecision address_t}.
#[local] Abbreviation message_t :=
  (@message data_t peer_id_t registration_id_t address_t).
Implicit Types
  (msg : message_t) (msgs others : list message_t)
  (test : message_t → bool)
  (w : @world data_t peer_id_t registration_id_t address_t)
  (rid : registration_id_t).

Lemma count_cons test msg msgs :
  count test (msg :: msgs) = (if test msg then 1 else 0) + count test msgs.
Proof.
  unfold count. rewrite filter_cons.
  destruct (decide (test msg = true)) as [->|Hn]; [done|].
  by apply not_true_is_false in Hn as ->.
Qed.

Lemma count_app test (msgs1 msgs2 : list message_t) :
  count test (msgs1 ++ msgs2) = count test msgs1 + count test msgs2.
Proof. unfold count. by rewrite filter_app, length_app. Qed.

Lemma count_none test msgs :
  (∀ msg, msg ∈ msgs → test msg = false) → count test msgs = 0.
Proof.
  induction msgs as [|msg msgs IH]; intros H; [done|].
  rewrite count_cons, (H msg), IH; [done| |left].
  intros msg' Hin. apply H. by right.
Qed.

(** C9. Over the life of a registrant (construction, the messages of
    others, destruction when construction succeeded), whenever the create
    message for its registration id was sent: the deregisterer had been
    armed with the registrar's delete mailbox and that id before anything
    was sent, and exactly one delete message with that id was sent, to that
    mailbox, after the create. *)
Theorem registrant_deregisters_exactly_once (cl : mailbox_manager_t)
    (md : nat → option registrar_metadata_t) rid (initial_value : data_t)
    others w outcome w' :
  lifetime cl md rid initial_value others w = (outcome, w') →
  (∀ msg, msg ∈ others →
          is_create_for rid msg = false ∧ is_delete_of rid msg = false) →
  ∃ msgs, sent w' = sent w ++ msgs ∧
    (count (is_create_for rid) msgs ≠ 0 →
     ∃ registrar w1 armed w2 md_d,
       resource_access_t_ctor md w = (Ok registrar, w1) ∧
       arm_deregisterer registrar rid w1 = (Ok armed, w2) ∧
       md (now w1) = Some md_d ∧
       fun_ armed = Some {| bound_addr := delete_mailbox md_d;
                            bound_rid := rid |} ∧
       sent w2 = sent w ∧
       count (is_create_for rid) msgs = 1 ∧
       count (is_delete_of rid) msgs = 1 ∧
       count (is_delete_for (delete_mailbox md_d) rid) msgs = 1 ∧
       last msgs = Some (delete_message (delete_mailbox md_d) rid)).
Proof.
  intros Hlife Hothers.
  assert (count (is_create_for rid) others = 0) as Hoc.
  { apply count_none. intros msg Hin. by apply Hothers. }
  assert (count (is_delete_of rid) others = 0) as Hod.
  { apply count_none. intros msg Hin. by apply Hothers. }
  assert (∀ addr, count (is_delete_for addr rid) others = 0) as Hoa.
  { intros addr. apply count_none. intros [] Hin; [done|].
    apply Hothers in Hin as [_ Hin]. simpl in *.
    by rewrite Hin, andb_false_r. }
  revert Hlife. unfold lifetime, ctor, resource_access_t_ctor.
  unfold access at 1. cbn [registrar_md].
  destruct (md (now w)) as [md0|] eqn:E0; simpl.
  2:{ intros [= <- <-]. exists []. simpl. by rewrite app_nil_r. }
  unfold arm_deregisterer, access. simpl.
  destruct (md (S (now w))) as [md1|] eqn:E1; simpl.
  2:{ intros [= <- <-]. exists []. simpl. by rewrite app_nil_r. }
  unfold send_create, access. simpl.
  destruct (md (S (S (now w)))) as [md2|] eqn:E2; simpl.
  - intros [= <- <-]. unfold dtor, death_runner_t_dtor. simpl.
    exists ([create_message (create_mailbox md2) rid (get_me cl) initial_value]
            ++ others ++ [delete_message (delete_mailbox md1) rid]).
    split; [by rewrite <- !app_assoc|]. intros _.
    eexists _, _, _, _, md1. unfold access. rewrite E0. simpl.
    split; [done|]. unfold arm_deregisterer, access. simpl. rewrite E1.
    split; [done|]. split; [done|]. split; [done|]. split; [done|].
    rewrite !count_cons, !count_app, !count_cons, Hoc, Hod, Hoa. simpl.
    rewrite !bool_decide_eq_true_2 by done. simpl.
    split; [done|]. split; [done|]. split; [done|].
    by rewrite app_comm_cons, last_snoc.
  - intros [= <- <-]. unfold death_runner_t_dtor. simpl.
    exists [delete_message (delete_mailbox md1) rid].
    split; [done|]. by rewrite count_cons.
Qed.
End registrant_properties.

(** A registrar that stays alive: create, then the delete at destruction. *)
Example registrant_life :
  registrant_t.sent
    (registrant_t.lifetime example_cluster example_registrar_md 7 0 []
       example_world).2
  = [registrant_t.create_message 10 7 1 0; registrant_t.delete_message 11 7].
Proof. reflexivity. Qed.

(** A registrar lost between arming and the create: the constructor throws
    [resource_lost_exc_t], no create is sent, and the armed deregisterer
    still sends its delete as the members are destroyed. *)
Example registrant_lost_before_create :
  registrant_t.lifetime example_cluster example_registrar_lost_md 7 0 []
    example_world
  = (Throw resource_lost_exc_t,
     {| registrant_t.now := 4;
        registrant_t.sent := [registrant_t.delete_message 11 7] |}).
Proof. reflexivity. Qed.

Lemma registrant_deregisters_exactly_once_witness :
  registrant_t.lifetime example_cluster example_registrar_md 7 0 []
    example_world
  = (Ok tt,
     {| registrant_t.now := 5;
        registrant_t.sent := [registrant_t.create_message 10 7 1 0;
                              registrant_t.delete_message 11 7] |}) ∧
  (∀ msg : @registrant_t.message nat nat nat nat, msg ∈ [] →
     registrant_t.is_create_for 7 msg = false ∧
     registrant_t.is_delete_of 7 msg = false) ∧
  ∃ msgs,
    [registrant_t.create_message 10 7 1 0; registrant_t.delete_message 11 7]
    = [] ++ msgs ∧
    (registrant_t.count (registrant_t.is_create_for 7) msgs ≠ 0 →
     ∃ registrar w1 armed w2 md_d,
       registrant_t.resource_access_t_ctor example_registrar_md example_world
       = (Ok registrar, w1) ∧
       registrant_t.arm_deregisterer registrar 7 w1 = (Ok armed, w2) ∧
       example_registrar_md (registrant_t.now w1) = Some md_d ∧
       registrant_t.fun_ armed
       = Some {| registrant_t.bound_addr := registrant_t.delete_mailbox md_d;
                 registrant_t.bound_rid := 7 |} ∧
       registrant_t.sent w2 = [] ∧
       registrant_t.count (registrant_t.is_create_for 7) msgs = 1 ∧
       registrant_t.count (registrant_t.is_delete_of 7) msgs = 1 ∧
       registrant_t.count
         (registrant_t.is_delete_for (registrant_t.delete_mailbox md_d) 7)
         msgs = 1 ∧
       last msgs
       = Some (registrant_t.delete_message
                 (registrant_t.delete_mailbox md_d) 7)).
Proof.
  assert (registrant_t.lifetime example_cluster example_registrar_md 7 0 []
            example_world
          = (Ok tt,
             {| registrant_t.now := 5;
                registrant_t.sent := [registrant_t.create_message 10 7 1 0;
                                      registrant_t.delete_message 11 7] |}))
    as Hlife by reflexivity.
  assert (∀ msg : @registrant_t.message nat nat nat nat, msg ∈ [] →
            registrant_t.is_create_for 7 msg = false ∧
            registrant_t.is_delete_of 7 msg = false) as Hothers.
  { intros msg Hin. by apply elem_of_nil in Hin. }
  split; [exact Hlife|]. split; [exact Hothers|].
  exact (registrant_deregisters_exactly_once example_cluster
           example_registrar_md 7 0 [] example_world _ _ Hlife Hothers).
Defined.

(** ** [one_waiter_cond_t] *)

Section one_waiter_cond_properties.
Import one_waiter_cond_t.
Implicit Types (c : one_waiter_cond_t.one_waiter_cond_t) (self : coro_t).

Lemma pulse_Ok c c' evs :
  pulse c = Ok (c', evs) →
  pulsed_ c = false ∧ pulsed_ c' = true ∧ waiter_ c' = None.
Proof.
  unfold pulse. destruct (pulsed_ c); [done|]. simpl.
  destruct (waiter_ c); intros [= <- <-]; done.
Qed.

(** C10. A second [pulse] and a second waiter are assertion failures; a
    [wait_eagerly] that follows a [pulse] returns without suspending; and a
    [pulse] that finds a waiter clears the field, then notifies that waiter,
    once, with the field already cleared, after which no [pulse] can notify
    again. *)
Theorem one_pulse_one_waiter c self :
  (pulsed_ c = true → pulse c = Throw assertion_failure) ∧
  (is_Some (waiter_ c) → wait_eagerly self c = Throw assertion_failure) ∧
  (∀ c' evs, pulse c = Ok (c', evs) →
             wait_eagerly self c' = Ok (c', returned)) ∧
  (∀ who, pulsed_ c = false → waiter_ c = Some who →
     ∃ c', pulse c = Ok (c', [notify_now who c']) ∧
           waiter_ c' = None ∧ pulsed_ c' = true ∧
           notifications_of who [notify_now who c'] = 1 ∧
           pulse c' = Throw assertion_failure).
Proof.
  split; [|split; [|split]].
  - intros Hp. unfold pulse. by rewrite Hp.
  - intros [who Hw]. unfold wait_eagerly. by rewrite Hw.
  - intros c' evs (_ & Hp & Hw)%pulse_Ok. unfold wait_eagerly.
    by rewrite Hw, Hp.
  - intros who Hp Hw. unfold pulse at 1. rewrite Hp. simpl. rewrite Hw.
    eexists. split; [done|]. simpl. split; [done|]. split; [done|].
    split; [|done]. unfold notifications_of. rewrite filter_cons. simpl.
    by rewrite bool_decide_eq_true_2.
Qed.
End one_waiter_cond_properties.

(** A waiter that comes first is suspended, the pulse notifies it with the
    field cleared, and the assertion after its resumption holds. *)
Example wait_then_pulse :
  (let fresh := {| one_waiter_cond_t.pulsed_ := false;
                   one_waiter_cond_t.waiter_ := None |} in
   '(c1, outcome) ← one_waiter_cond_t.wait_eagerly 3 fresh;
   '(c2, evs) ← one_waiter_cond_t.pulse c1;
   _ ← one_waiter_cond_t.wait_eagerly_resumed c2;
   Ok (outcome, evs))
  = Ok (one_waiter_cond_t.suspended,
        [one_waiter_cond_t.notify_now 3
           {| one_waiter_cond_t.pulsed_ := true;
              one_waiter_cond_t.waiter_ := None |}]).
Proof. reflexivity. Qed.

Lemma one_pulse_one_waiter_witness :
  let c := {| one_waiter_cond_t.pulsed_ := false;
              one_waiter_cond_t.waiter_ := Some 3 |} in
  let pulsed := {| one_waiter_cond_t.pulsed_ := true;
                   one_waiter_cond_t.waiter_ := None |} in
  is_Some (one_waiter_cond_t.waiter_ c) ∧
  one_waiter_cond_t.wait_eagerly 4 c = Throw assertion_failure ∧
  one_waiter_cond_t.pulse c
  = Ok (pulsed, [one_waiter_cond_t.notify_now 3 pulsed]) ∧
  one_waiter_cond_t.wait_eagerly 4 pulsed
  = Ok (pulsed, one_waiter_cond_t.returned) ∧
  one_waiter_cond_t.pulsed_ pulsed = true ∧
  one_waiter_cond_t.pulse pulsed = Throw assertion_failure.
Proof.
  intros c pulsed.
  assert (is_Some (one_waiter_cond_t.waiter_ c)) as Hw by (by exists 3).
  assert (one_waiter_cond_t.pulse c
          = Ok (pulsed, [one_waiter_cond_t.notify_now 3 pulsed])) as Hp
    by reflexivity.
  assert (one_waiter_cond_t.pulsed_ pulsed = true) as Hpulsed by reflexivity.
  pose proof (one_pulse_one_waiter c 4) as (_ & Hsecond & Hafter & _).
  pose proof (one_pulse_one_waiter pulsed 4) as (Hagain & _).
  split; [exact Hw|]. split; [exact (Hsecond Hw)|]. split; [exact Hp|].
  split; [exact (Hafter _ _ Hp)|]. split; [exact Hpulsed|].
  exact (Hagain Hpulsed).
Defined.

(** * Further properties of the embedded code *)

(** ** The default region functions *)

Section region_helper_properties.
Context {P : protocol_t} `{!protocol_laws P}.
Implicit Types (a b r : region_t) (k : key_t).

(** X1. [region_overlaps] does not depend on the order of its arguments, a
    region overlaps itself exactly when it is not empty, and an empty region
    overlaps no region; [region_t::empty()] is empty. *)
Theorem region_overlaps_symmetric a b :
  region_overlaps a b = region_overlaps b a ∧
  region_overlaps a a = negb (region_is_empty a) ∧
  (region_is_empty a = true → region_overlaps a b = false) ∧
  region_is_empty (region_empty (protocol_t:=P)) = true.
Proof.
  split; [|split; [|split]].
  - apply eq_true_iff_eq. rewrite !region_overlaps_true.
    split; intros (k & H1 & H2); eauto.
  - unfold region_overlaps. f_equal. apply eq_true_iff_eq.
    rewrite !region_is_empty_true. split; intros H k; specialize (H k).
    + rewrite region_intersection_spec in H.
      by destruct (region_contains a k).
    + by rewrite region_intersection_spec, H.
  - rewrite region_is_empty_true, region_overlaps_false. intros H k.
    by rewrite H.
  - apply region_is_empty_true, region_empty_spec.
Qed.
End region_helper_properties.

Lemma region_overlaps_symmetric_witness :
  region_is_empty (dummy_region []) = true ∧
  region_overlaps (dummy_region []) (dummy_region ["a"%string]) = false.
Proof.
  assert (region_is_empty (dummy_region []) = true) as He
    by (vm_compute; reflexivity).
  split; [exact He|].
  exact (proj1 (proj2 (proj2 (region_overlaps_symmetric
           (dummy_region []) (dummy_region ["a"%string])))) He).
Defined.

(** ** Region maps: lookups, equality as an equivalence, congruences *)

Section region_map_lookup_facts.
Context {P : protocol_t} `{!protocol_laws P}.
Context {value_t : Type} `{!EqDecision value_t}.
Implicit Types (m n : region_map_t P value_t) (r : region_t) (k : key_t).

Lemma domain_value_at_None m d k :
  get_domain m = Ok d →
  region_contains d k = false ↔ value_at m k = None.
Proof.
  intros [_ Hk]%get_domain_Ok. by rewrite Hk, value_at_None.
Qed.

Lemma same_function_same_domain m n dm dn :
  get_domain m = Ok dm → get_domain n = Ok dn →
  (∀ k, value_at m k = value_at n k) →
  ∀ k, region_contains dm k = region_contains dn k.
Proof.
  intros Hm Hn Hval k.
  pose proof (domain_value_at_None m dm k Hm) as H1.
  pose proof (domain_value_at_None n dn k Hn) as H2.
  rewrite (Hval k) in H1.
  destruct (region_contains dm k), (region_contains dn k); try done.
  - destruct H1 as [_ H1], H2 as [H2 _]. by specialize (H1 (H2 eq_refl)).
  - destruct H1 as [H1 _], H2 as [_ H2]. by specialize (H2 (H1 eq_refl)).
Qed.

(** On maps whose domains exist, [operator==] is true exactly of maps that
    have the same value, or none, at every key. *)
Lemma region_map_eq_true_iff m n dm dn :
  get_domain m = Ok dm → get_domain n = Ok dn →
  region_map_eq m n = Ok true ↔ ∀ k, value_at m k = value_at n k.
Proof.
  intros Hm Hn.
  destruct (region_map_eq_spec m n dm dn Hm Hn) as (res & -> & Hiff).
  split.
  - intros [= ->]. destruct Hiff as [Hiff _].
    destruct (Hiff eq_refl) as [Heq Hval]. rewrite region_eqb_spec in Heq.
    intros k. destruct (region_contains dm k) eqn:Hk; [by apply Hval|].
    pose proof Hk as Hk'. rewrite Heq in Hk'.
    apply (domain_value_at_None m dm k Hm) in Hk.
    apply (domain_value_at_None n dn k Hn) in Hk'. congruence.
  - intros Hval. f_equal. apply Hiff. split; [|by auto].
    apply region_eqb_spec. by eapply same_function_same_domain.
Qed.

Lemma region_map_eq_Ok_domains m n res :
  region_map_eq m n = Ok res →
  ∃ dm dn, get_domain m = Ok dm ∧ get_domain n = Ok dn.
Proof.
  unfold region_map_eq. intros H. do 2 exc_step. eauto.
Qed.

Lemma value_at_single r (v : value_t) k :
  value_at (region_map_t_single r v) k =
  if region_contains r k then Some v else None.
Proof. done. Qed.

(** X2. The constructors: the map of one pair has the pair's region as
    domain and the pair's value exactly on that region; the default map has
    a domain, which is empty, and no value anywhere. *)
Theorem constructors_domains r (v : value_t) :
  (∃ d, get_domain (region_map_t_single r v) = Ok d ∧
        region_eqb d r = true) ∧
  (∀ k, value_at (region_map_t_single r v) k =
        if region_contains r k then Some v else None) ∧
  (∃ d, get_domain (region_map_t_empty (value_t:=value_t)) = Ok d ∧
        region_is_empty d = true).
Proof.
  split; [|split].
  - destruct (get_domain_intro (region_map_t_single r v) r) as (d & Hd & Hk);
      [done| |].
    + intros k. simpl. by rewrite orb_false_r.
    + exists d. split; [done|]. by apply region_eqb_spec.
  - apply value_at_single.
  - destruct (get_domain_intro (region_map_t_empty (value_t:=value_t))
                region_empty) as (d & Hd & Hk); [done| |].
    + intros k. by rewrite region_empty_spec.
    + exists d. split; [done|]. apply region_is_empty_true. intros k.
      by rewrite Hk, region_empty_spec.
Qed.

(** X3. What [mask] returns holds no empty region: each of its entries is
    the non-empty intersection of an entry of the map with the mask, with
    that entry's value; it has no more entries than the map; and a mask that
    does not overlap the domain returns the map of no pairs. *)
Theorem mask_keeps_only_nonempty_slices r m d :
  get_domain m = Ok d →
  ∃ m', mask r m = Ok m' ∧
    (∀ r' v, (r', v) ∈ m' →
       region_is_empty r' = false ∧
       ∃ ri, (ri, v) ∈ m ∧ r' = region_intersection ri r) ∧
    length m' ≤ length m ∧
    (region_overlaps d r = false → m' = []).
Proof.
  intros Hm. exists (masked_pairs r m). split; [by eapply mask_Ok|].
  split; [|split].
  - intros r' v (ri & Hin & -> & Hne)%elem_of_masked_pairs. eauto.
  - clear Hm. induction m as [|[ri vi] m IH]; [done|]. cbn [masked_pairs].
    destruct (negb _); simpl; lia.
  - intros Hov. rewrite region_overlaps_false in Hov.
    apply get_domain_Ok in Hm as [_ Hk].
    destruct (masked_pairs r m) as [|[r' v] rest] eqn:E; [done|]. exfalso.
    assert ((r', v) ∈ masked_pairs r m) as Hin by (rewrite E; left).
    apply elem_of_masked_pairs in Hin as (ri & Hin & -> & Hne).
    apply region_is_empty_false in Hne as [k Hkk].
    rewrite region_intersection_spec in Hkk.
    apply andb_true_iff in Hkk as [Hri Hr].
    assert (region_contains d k = true) as Hd.
    { rewrite Hk. apply covers_true_elem. exists ri. split; [|done].
      apply list_elem_of_fmap. by exists (ri, v). }
    by rewrite (Hov k Hd) in Hr.
Qed.

(** X4. A mask that holds the whole domain returns a map equal, for
    [operator==], to the map itself, and masking a second time by the same
    region changes nothing. *)
Theorem mask_by_superset_is_identity r m d :
  get_domain m = Ok d →
  (region_is_superset r d = true →
   ∃ m', mask r m = Ok m' ∧ region_map_eq m' m = Ok true) ∧
  (∃ m' m'', mask r m = Ok m' ∧ mask r m' = Ok m'' ∧
             region_map_eq m'' m' = Ok true).
Proof.
  intros Hm.
  destruct (masked_pairs_domain r m d Hm) as (d' & Hd' & Hk').
  destruct (masked_pairs_domain r _ d' Hd') as (d'' & Hd'' & Hk'').
  split.
  - intros Hs. exists (masked_pairs r m). split; [by eapply mask_Ok|].
    apply (region_map_eq_true_iff _ _ d' d Hd' Hm). intros k.
    rewrite value_at_masked_pairs.
    destruct (region_contains r k) eqn:Hr; [done|]. symmetry.
    apply (domain_value_at_None m d k Hm).
    rewrite region_is_superset_spec in Hs. specialize (Hs k).
    destruct (region_contains d k); [|done]. by rewrite Hs in Hr.
  - exists (masked_pairs r m), (masked_pairs r (masked_pairs r m)).
    split; [by eapply mask_Ok|]. split; [by eapply mask_Ok|].
    apply (region_map_eq_true_iff _ _ d'' d' Hd'' Hd'). intros k.
    rewrite !value_at_masked_pairs. by destruct (region_contains r k).
Qed.

(** X5. A lookup after [update]: at a key of the new domain the result has
    the value of the new map, at every other key the value the old map
    had. *)
Theorem update_lookup m n u dn :
  update m n = Ok u → get_domain n = Ok dn →
  ∀ k, value_at u k =
       if region_contains dn k then value_at n k else value_at m k.
Proof.
  intros [-> _]%update_inv [_ Hk]%get_domain_Ok k.
  by rewrite value_at_updated, Hk.
Qed.

(** X6. [set] inside the domain returns a map that has the given value on
    the given region and the old values elsewhere. *)
Theorem set_lookup r (v : value_t) m d :
  get_domain m = Ok d → region_is_superset d r = true →
  ∃ u, set r v m = Ok u ∧
       ∀ k, value_at u k =
            if region_contains r k then Some v else value_at m k.
Proof.
  intros Hm Hs.
  destruct (get_domain_intro (region_map_t_single r v) r) as (dr & Hdr & Hk);
    [done| |].
  { intros k. simpl. by rewrite orb_false_r. }
  exists (updated_pairs m ((region_map_t_single r v).*1)
          ++ region_map_t_single r v).
  split.
  - unfold set. eapply update_Ok; [done|done|].
    rewrite region_is_superset_spec in Hs |- *. intros k. rewrite Hk.
    apply Hs.
  - intros k. rewrite value_at_updated. simpl. rewrite orb_false_r.
    by destruct (region_contains r k).
Qed.
End region_map_lookup_facts.

Section region_map_algebra.
Context {P : protocol_t} `{!protocol_laws P}.
Context {value_t : Type} `{!EqDecision value_t}.
Implicit Types (m n o : region_map_t P value_t) (r : region_t) (k : key_t).

Lemma empty_map_domain :
  ∃ d, get_domain (region_map_t_empty (P:=P) (value_t:=value_t)) = Ok d ∧
       ∀ k, region_contains d k = false.
Proof.
  destruct (get_domain_intro (region_map_t_empty (value_t:=value_t))
              region_empty) as (d & Hd & Hk); [done| |].
  - intros k. by rewrite region_empty_spec.
  - exists d. split; [done|]. intros k. by rewrite Hk, region_empty_spec.
Qed.

(** What [update] builds on maps that pass its assertion, with the domain
    of the result. *)
Lemma update_result m n dm dn :
  get_domain m = Ok dm → get_domain n = Ok dn →
  region_is_superset dm dn = true →
  ∃ d', update m n = Ok (updated_pairs m (n.*1) ++ n) ∧
        get_domain (updated_pairs m (n.*1) ++ n) = Ok d' ∧
        (∀ k, region_contains d' k = region_contains dm k) ∧
        ∀ k, value_at (updated_pairs m (n.*1) ++ n) k =
             if region_contains dn k then value_at n k else value_at m k.
Proof.
  intros Hm Hn Hs.
  destruct (updated_domain m n dm dn Hm Hn Hs) as (d' & Hd' & Hk).
  exists d'. split; [by eapply update_Ok|]. split; [done|]. split; [done|].
  intros k. apply get_domain_Ok in Hn as [_ Hnk].
  by rewrite value_at_updated, Hnk.
Qed.

(** X7. Updating by the map of no pairs or by the map itself returns a map
    equal, for [operator==], to the map; and updating a second time by the
    same map changes nothing. *)
Theorem update_is_idempotent m n d :
  get_domain m = Ok d →
  (∃ u, update m region_map_t_empty = Ok u ∧ region_map_eq u m = Ok true) ∧
  (∃ u, update m m = Ok u ∧ region_map_eq u m = Ok true) ∧
  (∀ u, update m n = Ok u →
        ∃ u', update u n = Ok u' ∧ region_map_eq u' u = Ok true).
Proof.
  intros Hm. split; [|split].
  - destruct empty_map_domain as (de & Hde & Hke).
    destruct (update_result m region_map_t_empty d de Hm Hde)
      as (d' & Hu & Hd' & _ & Hval).
    { apply region_is_superset_spec. intros k. by rewrite Hke. }
    eexists. split; [done|].
    apply (region_map_eq_true_iff _ _ d' d Hd' Hm). intros k.
    by rewrite Hval, Hke.
  - destruct (update_result m m d d Hm Hm) as (d' & Hu & Hd' & _ & Hval).
    { by apply region_is_superset_spec. }
    eexists. split; [done|].
    apply (region_map_eq_true_iff _ _ d' d Hd' Hm). intros k.
    rewrite Hval. by destruct (region_contains d k).
  - intros u [-> (dm & dn & Hdm & Hdn & Hs)]%update_inv.
    destruct (update_result m n dm dn Hdm Hdn Hs)
      as (d1 & _ & Hd1 & Hk1 & Hval1).
    destruct (update_result _ n d1 dn Hd1 Hdn) as (d2 & Hu2 & Hd2 & _ & Hval2).
    { rewrite region_is_superset_spec in Hs |- *. intros k. rewrite Hk1.
      apply Hs. }
    eexists. split; [done|].
    apply (region_map_eq_true_iff _ _ d2 d1 Hd2 Hd1). intros k.
    rewrite Hval2, Hval1. by destruct (region_contains dn k).
Qed.

(** X8. [update] returns exactly when both maps have a domain and every
    key that the new pairs cover is one that the old pairs cover.  So it
    never returns on new pairs that overlap, the input that the comment at
    [update] says it assumes away, nor on old pairs that overlap: the
    assertion computes both domains first. *)
Theorem update_returns_iff m n :
  (is_Ok (update m n) ↔
   is_Ok (get_domain m) ∧ is_Ok (get_domain n) ∧
   ∀ k, covers (n.*1) k = true → covers (m.*1) k = true) ∧
  (is_Ok (update m n) →
   regions_disjoint (m.*1) = true ∧ regions_disjoint (n.*1) = true).
Proof.
  split.
  - split.
    + intros [u (_ & dm & dn & Hm & Hn & Hs)%update_inv].
      split; [by exists dm|]. split; [by exists dn|].
      apply get_domain_Ok in Hm as [_ Hkm]. apply get_domain_Ok in Hn as [_ Hkn].
      rewrite region_is_superset_spec in Hs. intros k.
      rewrite <- Hkm, <- Hkn. apply Hs.
    + intros ([dm Hm] & [dn Hn] & Hcov). eexists.
      eapply update_Ok; [done|done|].
      pose proof Hm as [_ Hkm]%get_domain_Ok.
      pose proof Hn as [_ Hkn]%get_domain_Ok.
      apply region_is_superset_spec. intros k. rewrite Hkm, Hkn. apply Hcov.
  - intros [u (_ & dm & dn & Hm & Hn & _)%update_inv].
    apply get_domain_Ok in Hm as [Hm _]. apply get_domain_Ok in Hn as [Hn _].
    done.
Qed.

(** X9. On maps whose domain exists [operator==] is reflexive, and it is
    transitive. *)
Theorem region_map_eq_is_equivalence m n o :
  (∀ d, get_domain m = Ok d → region_map_eq m m = Ok true) ∧
  (region_map_eq m n = Ok true → region_map_eq n o = Ok true →
   region_map_eq m o = Ok true).
Proof.
  split.
  - intros d Hm. by apply (region_map_eq_true_iff m m d d Hm Hm).
  - intros Hmn Hno.
    destruct (region_map_eq_Ok_domains _ _ _ Hmn) as (dm & dn & Hm & Hn).
    destruct (region_map_eq_Ok_domains _ _ _ Hno) as (_ & do & _ & Ho).
    rewrite (region_map_eq_true_iff m n dm dn Hm Hn) in Hmn.
    rewrite (region_map_eq_true_iff n o dn do Hn Ho) in Hno.
    apply (region_map_eq_true_iff m o dm do Hm Ho). intros k.
    by rewrite Hmn, Hno.
Qed.

(** X10. [mask] and [update] respect [operator==]: on maps that are equal
    they return maps that are equal, whatever the splits and orders of the
    pairs. *)
Theorem mask_and_update_respect_equality m m' n n' r :
  region_map_eq m m' = Ok true →
  (∃ a a', mask r m = Ok a ∧ mask r m' = Ok a' ∧
           region_map_eq a a' = Ok true) ∧
  (region_map_eq n n' = Ok true →
   ∀ u, update m n = Ok u →
        ∃ u', update m' n' = Ok u' ∧ region_map_eq u u' = Ok true).
Proof.
  intros Hmm.
  destruct (region_map_eq_Ok_domains _ _ _ Hmm) as (dm & dm' & Hm & Hm').
  rewrite (region_map_eq_true_iff m m' dm dm' Hm Hm') in Hmm.
  split.
  - destruct (masked_pairs_domain r m dm Hm) as (da & Hda & _).
    destruct (masked_pairs_domain r m' dm' Hm') as (da' & Hda' & _).
    exists (masked_pairs r m), (masked_pairs r m').
    split; [by eapply mask_Ok|]. split; [by eapply mask_Ok|].
    apply (region_map_eq_true_iff _ _ da da' Hda Hda'). intros k.
    by rewrite !value_at_masked_pairs, Hmm.
  - intros Hnn u [-> (dm0 & dn & Hm0 & Hn & Hs)]%update_inv.
    rewrite Hm in Hm0. injection Hm0 as <-.
    destruct (region_map_eq_Ok_domains _ _ _ Hnn) as (dn0 & dn' & Hn0 & Hn').
    rewrite Hn in Hn0. injection Hn0 as <-.
    rewrite (region_map_eq_true_iff n n' dn dn' Hn Hn') in Hnn.
    pose proof (same_function_same_domain m m' dm dm' Hm Hm' Hmm) as Hdm.
    pose proof (same_function_same_domain n n' dn dn' Hn Hn' Hnn) as Hdn.
    destruct (update_result m n dm dn Hm Hn Hs) as (d1 & _ & Hd1 & _ & Hv1).
    destruct (update_result m' n' dm' dn' Hm' Hn')
      as (d2 & Hu2 & Hd2 & _ & Hv2).
    { rewrite region_is_superset_spec in Hs |- *. intros k.
      rewrite <- Hdm, <- Hdn. apply Hs. }
    eexists. split; [done|].
    apply (region_map_eq_true_iff _ _ d1 d2 Hd1 Hd2). intros k.
    by rewrite Hv1, Hv2, Hdn, Hmm, Hnn.
Qed.
End region_map_algebra.

(** ** [region_map_transform] *)

Section region_map_transform_properties.
Context {P : protocol_t} `{!protocol_laws P}.
Context {old_t new_t : Type} `{!EqDecision old_t, !EqDecision new_t}.
Implicit Types (m n : region_map_t P old_t) (f : old_t → new_t).
Implicit Types (r : region_t) (k : key_t).

(** The vector [region_map_transform] builds. *)
#[local] Abbreviation new_pairs f m :=
  ((λ it : region_t * old_t, (it.1, f it.2)) <$> m).

Lemma new_pairs_regions f m : (new_pairs f m).*1 = m.*1.
Proof. rewrite <- list_fmap_compose. by apply list_fmap_ext. Qed.

Lemma region_map_transform_inv f m t :
  region_map_transform m f = Ok t → t = new_pairs f m.
Proof.
  unfold region_map_transform, region_map_t_range. intros H.
  by repeat exc_step.
Qed.

Lemma region_map_transform_Ok f m d :
  get_domain m = Ok d →
  region_map_transform m f = Ok (new_pairs f m) ∧
  get_domain (new_pairs f m) = Ok d.
Proof.
  intros Hm.
  assert (get_domain (new_pairs f m) = Ok d) as Hd.
  { unfold get_domain in *. by rewrite new_pairs_regions. }
  split; [|done]. unfold region_map_transform, region_map_t_range.
  by rewrite Hd.
Qed.

Lemma value_at_new_pairs f m k :
  value_at (new_pairs f m) k = f <$> value_at m k.
Proof.
  induction m as [|[r v] m IH]; [done|]. simpl.
  by destruct (region_contains r k).
Qed.

Lemma masked_pairs_new_pairs f m r :
  masked_pairs r (new_pairs f m) = new_pairs f (masked_pairs r m).
Proof.
  induction m as [|[ri vi] m IH]; [done|].
  rewrite fmap_cons. cbn [masked_pairs fst snd].
  destruct (negb _); [rewrite fmap_cons|]; by rewrite IH.
Qed.

(** X11. Transforming commutes with masking: [mask] of the transformed map
    and the transform of the masked map are the same vector of pairs. *)
Theorem transform_commutes_with_mask f m r d :
  get_domain m = Ok d →
  ∃ t tm mm mt,
    region_map_transform m f = Ok t ∧ mask r t = Ok tm ∧
    mask r m = Ok mm ∧ region_map_transform mm f = Ok mt ∧
    tm = mt.
Proof.
  intros Hm.
  destruct (region_map_transform_Ok f m d Hm) as [Ht Hdt].
  destruct (masked_pairs_domain r m d Hm) as (dm & Hdm & _).
  destruct (region_map_transform_Ok f _ dm Hdm) as [Hmt _].
  exists (new_pairs f m), (masked_pairs r (new_pairs f m)),
    (masked_pairs r m), (new_pairs f (masked_pairs r m)).
  split; [done|]. split; [by eapply mask_Ok|]. split; [by eapply mask_Ok|].
  split; [done|]. apply masked_pairs_new_pairs.
Qed.

(** X12. [region_map_transform] keeps the regions: the result has the same
    domain and as many pairs, its value at a key is the function applied to
    the old value there, and the results on maps equal for [operator==] are
    equal for [operator==]. *)
Theorem transform_maps_values f m d :
  get_domain m = Ok d →
  ∃ t, region_map_transform m f = Ok t ∧ get_domain t = Ok d ∧
       t.*1 = m.*1 ∧
       (∀ k, value_at t k = f <$> value_at m k) ∧
       (∀ n, region_map_eq m n = Ok true →
             ∃ t', region_map_transform n f = Ok t' ∧
                   region_map_eq t t' = Ok true).
Proof.
  intros Hm. destruct (region_map_transform_Ok f m d Hm) as [Ht Hdt].
  exists (new_pairs f m). split; [done|]. split; [done|].
  split; [apply new_pairs_regions|]. split; [apply value_at_new_pairs|].
  intros n Hmn.
  destruct (region_map_eq_Ok_domains _ _ _ Hmn) as (dm & dn & Hm' & Hn).
  rewrite (region_map_eq_true_iff m n dm dn Hm' Hn) in Hmn.
  destruct (region_map_transform_Ok f n dn Hn) as [Ht' Hdt'].
  exists (new_pairs f n). split; [done|].
  apply (region_map_eq_true_iff _ _ d dn Hdt Hdt'). intros k.
  by rewrite !value_at_new_pairs, Hmn.
Qed.
End region_map_transform_properties.

Section region_map_transform_composition.
Context {P : protocol_t} {a_t b_t c_t : Type}.

(** X13. Transforming twice is transforming by the composed function, and
    transforming by the identity returns the map itself. *)
Theorem transform_composes (m : region_map_t P a_t)
    (f : a_t → b_t) (g : b_t → c_t) :
  (t ← region_map_transform m f; region_map_transform t g)
  = region_map_transform m (g ∘ f) ∧
  region_map_transform m id = region_map_t_range m.
Proof.
  split.
  - unfold region_map_transform, region_map_t_range, get_domain.
    rewrite <- !list_fmap_compose.
    change (fst ∘ (λ it : region_t * a_t, (it.1, f it.2))) with
      (fst : region_t * a_t → region_t).
    change (fst ∘ (λ it : region_t * a_t, (it.1, (g ∘ f) it.2))) with
      (fst : region_t * a_t → region_t).
    destruct (region_join (m.*1)) as [d|e] eqn:E; simpl; [|done].
    rewrite <- !list_fmap_compose.
    change (fst ∘ ((λ it : region_t * b_t, (it.1, g it.2))
                   ∘ (λ it : region_t * a_t, (it.1, f it.2)))) with
      (fst : region_t * a_t → region_t).
    rewrite E. simpl. done.
  - unfold region_map_transform. f_equal.
    rewrite <- (list_fmap_id m) at 2. apply list_fmap_ext. by intros ? [].
Qed.
End region_map_transform_composition.

(** ** Subviews of subviews *)

Section store_subview_properties.
Context {P : protocol_t} `{!protocol_laws P}.
Context {binary_blob_t : Type} `{!EqDecision binary_blob_t}.
Context {store_state : Type}.
Implicit Types (parent : store_view_t P binary_blob_t store_state).
Implicit Types (new pm : metainfo_t P binary_blob_t) (r : region_t).
Implicit Types (st : store_state).

(** X14. A subview of a subview behaves as the direct subview of the
    parent over the inner region: all three constructors pass their
    assertion, [set_metainfo] has the same outcome through either, and on a
    parent metainfo that has a domain [get_metainfo] returns maps equal for
    [operator==]. *)
Theorem nested_subviews_collapse parent r1 r2 st :
  region_is_superset (get_region parent) r1 = true →
  region_is_superset r1 r2 = true →
  ∃ v1 v12 v2,
    store_subview_t parent r1 = Ok v1 ∧ store_subview_t v1 r2 = Ok v12 ∧
    store_subview_t parent r2 = Ok v2 ∧
    get_region v12 = get_region v2 ∧
    (∀ new, set_metainfo v12 new st = set_metainfo v2 new st) ∧
    (∀ pm pd, get_metainfo parent st = Ok pm → get_domain pm = Ok pd →
       ∃ g12 g2, get_metainfo v12 st = Ok g12 ∧ get_metainfo v2 st = Ok g2 ∧
                 region_map_eq g12 g2 = Ok true).
Proof.
  intros Hs1 Hs2.
  pose proof (region_is_superset_trans _ _ _ Hs1 Hs2) as Hs.
  exists (subview_of parent r1), (subview_of (subview_of parent r1) r2),
    (subview_of parent r2).
  split; [unfold store_subview_t; by rewrite Hs1|].
  split; [unfold store_subview_t; simpl; by rewrite Hs2|].
  split; [unfold store_subview_t; by rewrite Hs|].
  split; [done|]. split.
  - intros new. simpl. destruct (get_domain new) as [d|e]; [|done]. simpl.
    destruct (region_is_superset r2 d) eqn:Hd; [|done]. simpl.
    by rewrite (region_is_superset_trans _ _ _ Hs2 Hd).
  - intros pm pd Hpm Hpd. simpl. rewrite Hpm. simpl.
    destruct (masked_pairs_domain r1 pm pd Hpd) as (d1 & Hd1 & _).
    destruct (masked_pairs_domain r2 _ d1 Hd1) as (d12 & Hd12 & _).
    destruct (masked_pairs_domain r2 pm pd Hpd) as (d2 & Hd2 & _).
    rewrite (mask_Ok r1 pm pd Hpd). simpl.
    rewrite (mask_Ok r2 _ d1 Hd1), (mask_Ok r2 pm pd Hpd).
    eexists _, _. split; [done|]. split; [done|].
    apply (region_map_eq_true_iff _ _ d12 d2 Hd12 Hd2). intros k.
    rewrite !value_at_masked_pairs.
    rewrite region_is_superset_spec in Hs2. specialize (Hs2 k).
    destruct (region_contains r2 k); [by rewrite Hs2|done].
Qed.

(** X15. A [set_metainfo] that a subview lets through meets the parent's
    own documented precondition, the parent's region holding the new
    domain, and is the parent's result; one whose domain reaches outside
    the subregion is an assertion failure whatever the parent would do. *)
Theorem subview_set_metainfo_guards_parent parent r new d st :
  region_is_superset (get_region parent) r = true →
  get_domain new = Ok d →
  (region_is_superset r d = true →
   region_is_superset (get_region parent) d = true ∧
   set_metainfo (subview_of parent r) new st = set_metainfo parent new st) ∧
  (region_is_superset r d = false →
   set_metainfo (subview_of parent r) new st = Throw assertion_failure).
Proof.
  intros Hs Hd. split; intros Hr; simpl; rewrite Hd; simpl; rewrite Hr.
  - split; [by eapply region_is_superset_trans|done].
  - done.
Qed.
End store_subview_properties.

(** ** [set_metainfo] followed by [get_metainfo] *)

Section set_metainfo_properties.
Context {P : protocol_t} `{!protocol_laws P}.
Context {binary_blob_t : Type} `{!EqDecision binary_blob_t}.
Implicit Types (new g : metainfo_t P binary_blob_t) (r : region_t).


End set_metainfo_properties.


(** The round trip through the subview over a and b of the store over a to
    c, with a metainfo over a alone: the precondition holds, and what
    [get_metainfo] then returns is equal to what was set. *)
Example set_metainfo_round_trip :
  (sub ← store_subview_t example_store example_subregion;
   dn ← get_domain example_new_metainfo;
   s' ← set_metainfo sub example_new_metainfo example_metainfo;
   g ← get_metainfo sub s';
   equal ← region_map_eq g example_new_metainfo;
   Ok (region_is_superset (get_region sub) dn, g, equal))
  = Ok (true, example_new_metainfo, true).
Proof. vm_compute. reflexivity. Qed.

(** ** The master's handlers, whatever the dispatcher does *)

Section master_reply_properties.
Import master_t.
Context {read_t read_response_t write_t write_response_t : Type}.
Context {order_token_t address_t : Type}.
Context (what : exception → string).
Implicit Types
  (m : @master_t.master_t read_t read_response_t write_t write_response_t
         order_token_t).

(** X16. Whatever the lock and whatever the dispatcher does, a handler
    sends at most one message, only to the reply address, and it returns
    normally exactly when it has sent one: an exception that leaves the
    handler (a failed assertion on the lock, or a dispatcher exception other
    than the two it catches) leaves no reply behind. *)
Theorem handler_replies_iff_it_returns m (keepalive : lock_t)
    (response_address : address_t) (otok : order_token_t)
    (rd : read_t) (wr : write_t) :
  let r := on_read what m rd otok response_address keepalive in
  let w := on_write what m wr otok response_address keepalive in
  (length r.2 ≤ 1 ∧ length w.2 ≤ 1) ∧
  (∀ msg, msg ∈ r.2 ++ w.2 → reply_address msg = response_address) ∧
  (r.1 = Ok tt ↔ length r.2 = 1) ∧
  (w.1 = Ok tt ↔ length w.2 = 1) ∧
  (∀ e, r.1 = Throw e →
        (held_drainer keepalive ≠ drainer m ∧ e = assertion_failure) ∨
        (read (mirror_dispatcher m) rd otok = Throw e ∧
         e ≠ mirror_lost_exc_t ∧ e ≠ insufficient_mirrors_exc_t)) ∧
  (∀ e, w.1 = Throw e →
        (held_drainer keepalive ≠ drainer m ∧ e = assertion_failure) ∨
        (write (mirror_dispatcher m) wr otok = Throw e ∧
         e ≠ mirror_lost_exc_t ∧ e ≠ insufficient_mirrors_exc_t)).
Proof.
  intros r w. subst r w. unfold on_read, on_write, assert_is_holding.
  case_bool_decide as Hheld; simpl.
  2:{ repeat split; try done; try lia.
      - intros msg Hin. by apply elem_of_nil in Hin.
      - intros e [= <-]. by left.
      - intros e [= <-]. by left. }
  destruct (read (mirror_dispatcher m) rd otok) as [resp|[]] eqn:Er;
    destruct (write (mirror_dispatcher m) wr otok) as [resp'|[]] eqn:Ew;
    simpl; (split; [split; lia|]);
    (split; [intros msg Hin; set_unfold; naive_solver|]);
    (split; [split; (done || lia)|]);
    (split; [split; (done || lia)|]);
    (split; intros e He; try done; right; injection He as <-; done).
Qed.
End master_reply_properties.

(** ** The registrant's constructor, outcome by outcome *)

Section registrant_ctor_properties.
Import registrant_t.
Context {data_t peer_id_t registration_id_t address_t : Type}.
Context `{!EqDecision registration_id_t, !EqDecision address_t}.
Implicit Types
  (w : @world data_t peer_id_t registration_id_t address_t)
  (rid : registration_id_t).

(** X17. The constructor looks at the registrar's metadata three times.
    When the registrar is alive each time it returns a registrant armed
    with the delete mailbox seen at the second look, having sent exactly
    the create message, to the create mailbox seen at the third.  When the
    registrar is lost at the first or second look it throws
    [resource_lost_exc_t] and has sent nothing.  When the registrar is lost
    only at the third look it throws [resource_lost_exc_t] and has sent no
    create, but the delete message of the armed deregisterer. *)
Theorem ctor_outcomes (cl : mailbox_manager_t)
    (md : nat → option registrar_metadata_t) rid (initial_value : data_t) w :
  let t := now w in
  let result := ctor cl md rid initial_value w in
  match md t, md (S t), md (S (S t)) with
  | Some _, Some md1, Some md2 =>
      ∃ r, result.1 = Ok r ∧
           registration_id r = rid ∧
           fun_ (deregisterer r)
           = Some {| bound_addr := delete_mailbox md1; bound_rid := rid |} ∧
           sent result.2
           = sent w ++ [create_message (create_mailbox md2) rid (get_me cl)
                          initial_value]
  | Some _, Some md1, None =>
      result.1 = Throw resource_lost_exc_t ∧
      sent result.2 = sent w ++ [delete_message (delete_mailbox md1) rid]
  | _, _, _ =>
      result.1 = Throw resource_lost_exc_t ∧ sent result.2 = sent w
  end.
Proof.
  intros t result. subst t result.
  unfold ctor, resource_access_t_ctor, arm_deregisterer, send_create, access.
  cbn [registrar_md].
  destruct (md (now w)) as [md0|]; [|done]. cbn.
  destruct (md (S (now w))) as [md1|]; [|done]. cbn.
  destruct (md (S (S (now w)))) as [md2|]; cbn; [|done].
  eexists. done.
Qed.
End registrant_ctor_properties.

(** ** [one_waiter_cond_t]: the invariant and the handshake *)

Section one_waiter_cond_protocol.
Import one_waiter_cond_t.
Implicit Types (c : one_waiter_cond_t.one_waiter_cond_t) (self : coro_t).

(** X18. A waiter is registered only while the condition is not pulsed:
    [pulse] and [wait_eagerly] keep this, a [pulse] notifies at most once,
    and under it a registered waiter can always be pulsed: the assertion of
    [pulse] cannot fail while a coroutine waits. *)
Theorem waiter_only_unpulsed_is_invariant c self :
  waiter_only_unpulsed c →
  (∀ c' evs, pulse c = Ok (c', evs) →
             waiter_only_unpulsed c' ∧ length evs ≤ 1) ∧
  (∀ c' outcome, wait_eagerly self c = Ok (c', outcome) →
                 waiter_only_unpulsed c') ∧
  (is_Some (waiter_ c) → is_Ok (pulse c)).
Proof.
  unfold waiter_only_unpulsed. intros Hinv. split; [|split].
  - intros c' evs Hp. pose proof (pulse_Ok _ _ _ Hp) as (_ & _ & Hw).
    split; [rewrite Hw; by intros [? [=]]|].
    revert Hp. unfold pulse. destruct (pulsed_ c); [done|]. simpl.
    destruct (waiter_ c); intros [= <- <-]; simpl; lia.
  - intros c' outcome. unfold wait_eagerly.
    case_bool_decide as Hw; [done|]. simpl.
    destruct (pulsed_ c) eqn:Hp; simpl; intros [= <- <-]; simpl; [done|].
    done.
  - intros Hw. unfold pulse. rewrite (Hinv Hw). simpl.
    destruct (waiter_ c); by eexists.
Qed.

(** X19. The handshake: on a condition that is not pulsed and has no
    waiter, [wait_eagerly] registers the caller and suspends; the next
    [pulse] clears the field, notifies exactly that caller, once; the
    assertion that follows the caller's resumption holds; and a later
    [wait_eagerly] by anyone returns at once. *)
Theorem wait_then_pulse_handshake c self other :
  pulsed_ c = false → waiter_ c = None →
  ∃ c1 c2,
    wait_eagerly self c = Ok (c1, suspended) ∧ waiter_ c1 = Some self ∧
    pulse c1 = Ok (c2, [notify_now self c2]) ∧
    c2 = {| pulsed_ := true; waiter_ := None |} ∧
    wait_eagerly_resumed c2 = Ok tt ∧
    wait_eagerly other c2 = Ok (c2, returned).
Proof.
  intros Hp Hw. eexists _, _. unfold wait_eagerly at 1. rewrite Hw, Hp.
  simpl. split; [done|]. split; [done|]. split; [reflexivity|]. done.
Qed.
End one_waiter_cond_protocol.

Lemma waiter_only_unpulsed_is_invariant_witness :
  let c := {| one_waiter_cond_t.pulsed_ := false;
              one_waiter_cond_t.waiter_ := Some 3 |} in
  waiter_only_unpulsed c ∧ is_Some (one_waiter_cond_t.waiter_ c) ∧
  is_Ok (one_waiter_cond_t.pulse c).
Proof.
  intros c.
  assert (waiter_only_unpulsed c) as Hinv by (intros _; reflexivity).
  assert (is_Some (one_waiter_cond_t.waiter_ c)) as Hw by (by exists 3).
  split; [exact Hinv|]. split; [exact Hw|].
  exact (proj2 (proj2 (waiter_only_unpulsed_is_invariant c 4 Hinv)) Hw).
Defined.

Lemma wait_then_pulse_handshake_witness :
  let c := {| one_waiter_cond_t.pulsed_ := false;
              one_waiter_cond_t.waiter_ := None |} in
  one_waiter_cond_t.pulsed_ c = false ∧
  one_waiter_cond_t.waiter_ c = None ∧
  ∃ c1 c2,
    one_waiter_cond_t.wait_eagerly 3 c
    = Ok (c1, one_waiter_cond_t.suspended) ∧
    one_waiter_cond_t.waiter_ c1 = Some 3 ∧
    one_waiter_cond_t.pulse c1
    = Ok (c2, [one_waiter_cond_t.notify_now 3 c2]) ∧
    c2 = {| one_waiter_cond_t.pulsed_ := true;
            one_waiter_cond_t.waiter_ := None |} ∧
    one_waiter_cond_t.wait_eagerly_resumed c2 = Ok tt ∧
    one_waiter_cond_t.wait_eagerly 4 c2
    = Ok (c2, one_waiter_cond_t.returned).
Proof.
  intros c.
  assert (one_waiter_cond_t.pulsed_ c = false) as Hp by reflexivity.
  assert (one_waiter_cond_t.waiter_ c = None) as Hw by reflexivity.
  split; [exact Hp|]. split; [exact Hw|].
  exact (wait_then_pulse_handshake c 3 4 Hp Hw).
Defined.

(** ** Rendering a dummy region as JSON *)

Section json_adapter_properties.
Import json_adapter.
Implicit Types (s val : string) (its : list string) (c : Ascii.ascii).
Implicit Types (target : dummy_protocol_t.region_t).

Lemma string_append_cons c s1 s2 :
  String c s1 +:+ s2 = String c (s1 +:+ s2).
Proof. reflexivity. Qed.

Lemma string_append_nil_l s : EmptyString +:+ s = s.
Proof. reflexivity. Qed.

(** Unfolds appends to a string that starts with known characters. *)
Ltac string_norm :=
  rewrite ?string_append_cons, ?string_append_nil_l in *.

Lemma string_append_assoc s1 s2 s3 :
  (s1 +:+ s2) +:+ s3 = s1 +:+ (s2 +:+ s3).
Proof. induction s1 as [|c s1 IH]; string_norm; [done|by f_equal]. Qed.

Lemma string_append_nil_r s : s +:+ EmptyString = s.
Proof. induction s as [|c s IH]; string_norm; [done|by f_equal]. Qed.

Lemma string_length_append s1 s2 :
  String.length (s1 +:+ s2) = String.length s1 + String.length s2.
Proof.
  induction s1 as [|c s1 IH]; string_norm; [done|]. simpl. by f_equal.
Qed.

Lemma has_char_append c s1 s2 :
  has_char c (s1 +:+ s2) = has_char c s1 || has_char c s2.
Proof.
  induction s1 as [|c' s1 IH]; string_norm; [done|]. simpl.
  by rewrite IH, orb_assoc.
Qed.

Lemma append_keys_text val its :
  append_keys val its = val +:+ keys_text its.
Proof.
  revert val. induction its as [|it rest IH]; intros val;
    cbn [append_keys keys_text].
  - by rewrite string_append_nil_r.
  - by rewrite IH, !string_append_assoc.
Qed.

Lemma c_str_without_nul s : has_char Ascii.zero s = false → c_str s = s.
Proof.
  induction s as [|c s IH]; [done|]. simpl.
  intros [-> Hs]%orb_false_iff. by rewrite IH.
Qed.

Lemma c_str_properties s :
  has_char Ascii.zero (c_str s) = false ∧
  String.length (c_str s) ≤ String.length s.
Proof.
  induction s as [|c s [IH1 IH2]]; [done|]. simpl.
  destruct (Ascii.eqb c Ascii.zero) eqn:E; simpl; [split; [done|lia]|].
  rewrite E, IH1. split; [done|lia].
Qed.

Lemma keys_text_without c its :
  has_char c ", " = false →
  Forall (λ k, has_char c k = false) its →
  has_char c (keys_text its) = false.
Proof.
  intros Hc. induction 1 as [|k its Hk _ IH]; [done|]. cbn [keys_text].
  by rewrite !has_char_append, Hk, Hc, IH.
Qed.

Lemma keys_text_length its :
  String.length (keys_text its)
  = sum_list_with (λ k, String.length k + 2) its.
Proof.
  induction its as [|k its IH]; [done|]. cbn [keys_text sum_list_with].
  rewrite !string_length_append, IH. simpl. lia.
Qed.

Lemma keys_in_order_Permutation target :
  keys_in_order target ≡ₚ elements (dummy_protocol_t.keys target).
Proof. apply merge_sort_Permutation. Qed.

Lemma keys_in_order_Forall (test : string → Prop) target :
  (∀ k, k ∈ dummy_protocol_t.keys target → test k) →
  Forall test (keys_in_order target).
Proof.
  intros H. apply Forall_forall. intros k Hin. apply H.
  rewrite keys_in_order_Permutation in Hin. by apply elem_of_elements in Hin.
Qed.

(** The text before [c_str]. *)
Lemma render_text target :
  (append_keys (EmptyString +:+ "{") (keys_in_order target)) +:+ "}"
  = String "{"%char (keys_text (keys_in_order target) +:+ "}").
Proof.
  rewrite append_keys_text, string_append_assoc. by string_norm.
Qed.

(** X20. The rendered string never holds a NUL and is never longer than
    two braces plus, for every key, the key, a comma and a blank; when no
    key holds a NUL it has exactly that length, whatever the order of the
    keys. *)
Theorem render_as_json_length target :
  let text := valuestring_of (render_as_json target) in
  let full := 2 + sum_list_with (λ k, String.length k + 2)
                    (elements (dummy_protocol_t.keys target)) in
  has_char Ascii.zero text = false ∧
  String.length text ≤ full ∧
  ((∀ k, k ∈ dummy_protocol_t.keys target → has_char Ascii.zero k = false) →
   String.length text = full).
Proof.
  intros text full. subst text full. unfold render_as_json.
  cbn [valuestring_of]. rewrite render_text.
  assert (String.length
            (String "{"%char (keys_text (keys_in_order target) +:+ "}"))
          = 2 + sum_list_with (λ k, String.length k + 2)
                  (elements (dummy_protocol_t.keys target))) as Hlen.
  { cbn [String.length]. rewrite string_length_append, keys_text_length.
    rewrite (keys_in_order_Permutation target). simpl. lia. }
  split; [apply c_str_properties|]. split.
  - rewrite <- Hlen. apply c_str_properties.
  - intros Hnul. rewrite c_str_without_nul; [done|].
    cbn [has_char]. rewrite has_char_append, keys_text_without; [done|done|].
    by apply keys_in_order_Forall.
Qed.

Lemma key_separator_inj k1 k2 rest1 rest2 :
  has_char ","%char k1 = false → has_char ","%char k2 = false →
  k1 +:+ ", " +:+ rest1 = k2 +:+ ", " +:+ rest2 →
  k1 = k2 ∧ rest1 = rest2.
Proof.
  revert k2. induction k1 as [|c1 k1 IH]; intros [|c2 k2] H1 H2 Heq;
    string_norm; simpl in H1, H2.
  - by injection Heq as ->.
  - injection Heq as <- _. done.
  - injection Heq as -> _. done.
  - apply orb_false_iff in H1 as [_ H1]. apply orb_false_iff in H2 as [_ H2].
    injection Heq as -> Heq. by destruct (IH k2 H1 H2 Heq) as [-> ->].
Qed.

Lemma keys_text_inj its1 its2 :
  Forall (λ k, has_char ","%char k = false) its1 →
  Forall (λ k, has_char ","%char k = false) its2 →
  keys_text its1 +:+ "}" = keys_text its2 +:+ "}" → its1 = its2.
Proof.
  intros H1. revert its2.
  induction H1 as [|k1 its1 Hk1 _ IH]; intros its2 H2;
    destruct H2 as [|k2 its2 Hk2 H2]; cbn [keys_text]; intros Heq.
  - done.
  - rewrite !string_append_assoc in Heq.
    destruct k2 as [|c [|c' k2]]; string_norm; done.
  - rewrite !string_append_assoc in Heq.
    destruct k1 as [|c [|c' k1]]; string_norm; done.
  - rewrite !string_append_assoc in Heq.
    apply key_separator_inj in Heq as [-> Hrest]; [|done..].
    f_equal. by apply IH.
Qed.

(** X21. Among regions whose keys hold neither a NUL nor a comma the
    rendering is one to one: two such regions that render the same are the
    same region. *)
Theorem render_as_json_injective target1 target2 :
  (∀ k, k ∈ dummy_protocol_t.keys target1 ∪ dummy_protocol_t.keys target2 →
        has_char Ascii.zero k = false ∧ has_char ","%char k = false) →
  render_as_json target1 = render_as_json target2 →
  target1 = target2.
Proof.
  intros Hkeys. unfold render_as_json. rewrite !render_text.
  assert (∀ target,
            dummy_protocol_t.keys target
            ⊆ dummy_protocol_t.keys target1 ∪ dummy_protocol_t.keys target2 →
            c_str (String "{"%char (keys_text (keys_in_order target) +:+ "}"))
            = String "{"%char (keys_text (keys_in_order target) +:+ "}")) as Hc.
  { intros target Hsub. apply c_str_without_nul. cbn [has_char].
    rewrite has_char_append, keys_text_without; [done|done|].
    apply keys_in_order_Forall. intros k Hk. by apply Hkeys, Hsub. }
  rewrite !Hc by set_solver. intros [= Heq].
  apply keys_text_inj in Heq;
    [|apply keys_in_order_Forall; intros k Hk; apply Hkeys; set_solver..].
  destruct target1 as [keys1], target2 as [keys2]. f_equal.
  apply set_eq. intros k. simpl in *.
  rewrite <- !(elem_of_elements _ k).
  pose proof (keys_in_order_Permutation {| dummy_protocol_t.keys := keys1 |})
    as P1.
  pose proof (keys_in_order_Permutation {| dummy_protocol_t.keys := keys2 |})
    as P2.
  simpl in P1, P2. by rewrite <- P1, <- P2, Heq.
Qed.
End json_adapter_properties.

(** Without the condition on commas the rendering is ambiguous: the region
    of the one key ["a, b"] and the region of the keys ["a"] and ["b"]
    render the same. *)
Example render_as_json_ambiguous :
  json_adapter.render_as_json (dummy_region ["a, b"%string])
  = json_adapter.render_as_json (dummy_region ["a"; "b"]%string) ∧
  json_adapter.render_as_json (dummy_region ["a"; "b"]%string)
  = json_adapter.cJSON_String "{a, b, }".
Proof. vm_compute. done. Qed.

(** ** The data members of a subview *)

Section subview_data_properties.
Context {P : protocol_t} `{!protocol_laws P}.
Context {binary_blob_t : Type} `{!EqDecision binary_blob_t}.
Context {read_t read_response_t write_t write_response_t : Type}.
Context {transition_timestamp_t state_timestamp_t : Type}.
Context {backfill_chunk_t should_backfill_t chunk_fun_t : Type}.
Context {store_state : Type}.
Implicit Types
  (parent : @store_data_t P binary_blob_t read_t read_response_t write_t
              write_response_t transition_timestamp_t state_timestamp_t
              backfill_chunk_t should_backfill_t chunk_fun_t store_state).

(** X22. A subview forwards a [read], [write], [send_backfill] or
    [reset_data] exactly when the metainfo, start point or subregion lies
    in its region.  When it does, the call is the parent's call on the same
    arguments and state, and the regions lie in the parent's region too;
    and whenever a call through the subview returns, every region concerned
    has a domain inside the subview's region and the parent's member
    returned that same result.  [receive_backfill] is the parent's. *)
Theorem subview_data_guards_parent parent (region parent_region : region_t) :
  region_is_superset parent_region region = true →
  let sub := subview_data_of parent region in
  (∀ d, region_is_superset region d = true →
        region_is_superset parent_region d = true) ∧
  (∀ expected d rd s,
     get_domain expected = Ok d → region_is_superset region d = true →
     read sub expected rd s = read parent expected rd s) ∧
  (∀ expected new d dn wr timestamp s,
     get_domain expected = Ok d → region_is_superset region d = true →
     get_domain new = Ok dn → region_is_superset region dn = true →
     write sub expected new wr timestamp s
     = write parent expected new wr timestamp s) ∧
  (∀ start_point d should_backfill chunk_fun s,
     get_domain start_point = Ok d → region_is_superset region d = true →
     send_backfill sub start_point should_backfill chunk_fun s
     = send_backfill parent start_point should_backfill chunk_fun s) ∧
  (∀ subregion new dn s,
     region_is_superset region subregion = true →
     get_domain new = Ok dn → region_is_superset region dn = true →
     reset_data sub subregion new s = reset_data parent subregion new s) ∧
  (∀ chunk s, receive_backfill sub chunk s = receive_backfill parent chunk s) ∧
  (∀ expected rd s resp,
     read sub expected rd s = Ok resp →
     read parent expected rd s = Ok resp ∧
     ∃ d, get_domain expected = Ok d ∧
          region_is_superset region d = true) ∧
  (∀ expected new wr timestamp s resp,
     write sub expected new wr timestamp s = Ok resp →
     write parent expected new wr timestamp s = Ok resp ∧
     ∃ d dn, get_domain expected = Ok d ∧ get_domain new = Ok dn ∧
             region_is_superset region d = true ∧
             region_is_superset region dn = true) ∧
  (∀ start_point should_backfill chunk_fun s sent,
     send_backfill sub start_point should_backfill chunk_fun s = Ok sent →
     send_backfill parent start_point should_backfill chunk_fun s = Ok sent ∧
     ∃ d, get_domain start_point = Ok d ∧
          region_is_superset region d = true) ∧
  (∀ subregion new s s',
     reset_data sub subregion new s = Ok s' →
     reset_data parent subregion new s = Ok s' ∧
     region_is_superset region subregion = true ∧
     ∃ dn, get_domain new = Ok dn ∧ region_is_superset region dn = true).
Proof.
  intros Hs sub. unfold sub. clear sub.
  split; [intros d; by apply region_is_superset_trans|].
  split; [|split; [|split; [|split; [|split; [done|]]]]].
  - intros expected d rd s Hd Hr. simpl. rewrite Hd. simpl. by rewrite Hr.
  - intros expected new d dn wr timestamp s Hd Hr Hdn Hrn. simpl.
    rewrite Hd. simpl. rewrite Hr. simpl. rewrite Hdn. simpl. by rewrite Hrn.
  - intros start_point d should_backfill chunk_fun s Hd Hr. simpl.
    rewrite Hd. simpl. by rewrite Hr.
  - intros subregion new dn s Hr Hdn Hrn. simpl. rewrite Hr. simpl.
    rewrite Hdn. simpl. by rewrite Hrn.
  - split; [|split; [|split]].
    + intros expected rd s resp H. simpl in H. repeat exc_step.
      split; [done|]. eauto.
    + intros expected new wr timestamp s resp H. simpl in H.
      repeat exc_step. split; [done|]. eauto 10.
    + intros start_point should_backfill chunk_fun s sent H. simpl in H.
      repeat exc_step. split; [done|]. eauto.
    + intros subregion new s s' H. simpl in H. repeat exc_step.
      split; [done|]. split; [done|]. eauto.
Qed.
End subview_data_properties.

(** ** The further properties at the dummy protocol *)

Lemma constructors_domains_witness :
  ∃ d, get_domain (region_map_t_single (dummy_region ["a"%string]) 1) = Ok d ∧
       region_eqb d (dummy_region ["a"%string]) = true.
Proof. exact (proj1 (constructors_domains (dummy_region ["a"%string]) 1)). Defined.

Lemma mask_keeps_only_nonempty_slices_witness :
  get_domain example_old = Ok (dummy_region ["a"; "b"; "c"; "d"]%string) ∧
  ∃ m', mask (dummy_region ["b"; "x"]%string) example_old = Ok m' ∧
    (∀ r' v, (r', v) ∈ m' →
       region_is_empty r' = false ∧
       ∃ ri, (ri, v) ∈ example_old ∧
             r' = region_intersection ri (dummy_region ["b"; "x"]%string)) ∧
    length m' ≤ length example_old ∧
    (region_overlaps (dummy_region ["a"; "b"; "c"; "d"]%string)
       (dummy_region ["b"; "x"]%string) = false → m' = []).
Proof.
  assert (get_domain example_old
          = Ok (dummy_region ["a"; "b"; "c"; "d"]%string)) as Hm
    by (vm_compute; reflexivity).
  split; [exact Hm|].
  exact (mask_keeps_only_nonempty_slices (dummy_region ["b"; "x"]%string)
           example_old _ Hm).
Defined.

Lemma mask_by_superset_is_identity_witness :
  get_domain example_new = Ok (dummy_region ["b"; "d"]%string) ∧
  region_is_superset (dummy_region ["a"; "b"; "c"; "d"]%string)
    (dummy_region ["b"; "d"]%string) = true ∧
  ∃ m', mask (dummy_region ["a"; "b"; "c"; "d"]%string) example_new = Ok m' ∧
        region_map_eq m' example_new = Ok true.
Proof.
  assert (get_domain example_new = Ok (dummy_region ["b"; "d"]%string)) as Hm
    by (vm_compute; reflexivity).
  assert (region_is_superset (dummy_region ["a"; "b"; "c"; "d"]%string)
            (dummy_region ["b"; "d"]%string) = true) as Hs
    by (vm_compute; reflexivity).
  split; [exact Hm|]. split; [exact Hs|].
  exact (proj1 (mask_by_superset_is_identity
                  (dummy_region ["a"; "b"; "c"; "d"]%string) example_new _ Hm)
           Hs).
Defined.

Lemma update_lookup_witness :
  update example_old example_new
  = Ok (updated_pairs example_old (example_new.*1) ++ example_new) ∧
  get_domain example_new = Ok (dummy_region ["b"; "d"]%string) ∧
  ∀ k, value_at (updated_pairs example_old (example_new.*1) ++ example_new) k
       = if region_contains (dummy_region ["b"; "d"]%string) k
         then value_at example_new k else value_at example_old k.
Proof.
  assert (update example_old example_new
          = Ok (updated_pairs example_old (example_new.*1) ++ example_new))
    as Hu by (vm_compute; reflexivity).
  assert (get_domain example_new = Ok (dummy_region ["b"; "d"]%string)) as Hn
    by (vm_compute; reflexivity).
  split; [exact Hu|]. split; [exact Hn|].
  exact (update_lookup example_old example_new _ _ Hu Hn).
Defined.

Lemma set_lookup_witness :
  get_domain example_old = Ok (dummy_region ["a"; "b"; "c"; "d"]%string) ∧
  region_is_superset (dummy_region ["a"; "b"; "c"; "d"]%string)
    (dummy_region ["c"]%string) = true ∧
  ∃ u, set (dummy_region ["c"]%string) 9 example_old = Ok u ∧
       ∀ k, value_at u k =
            if region_contains (dummy_region ["c"]%string) k
            then Some 9 else value_at example_old k.
Proof.
  assert (get_domain example_old
          = Ok (dummy_region ["a"; "b"; "c"; "d"]%string)) as Hm
    by (vm_compute; reflexivity).
  assert (region_is_superset (dummy_region ["a"; "b"; "c"; "d"]%string)
            (dummy_region ["c"]%string) = true) as Hs
    by (vm_compute; reflexivity).
  split; [exact Hm|]. split; [exact Hs|].
  exact (set_lookup (dummy_region ["c"]%string) 9 example_old _ Hm Hs).
Defined.

Lemma update_is_idempotent_witness :
  get_domain example_old = Ok (dummy_region ["a"; "b"; "c"; "d"]%string) ∧
  ∃ u, update example_old example_old = Ok u ∧
       region_map_eq u example_old = Ok true.
Proof.
  assert (get_domain example_old
          = Ok (dummy_region ["a"; "b"; "c"; "d"]%string)) as Hm
    by (vm_compute; reflexivity).
  split; [exact Hm|].
  exact (proj1 (proj2 (update_is_idempotent example_old example_new _ Hm))).
Defined.

Lemma update_returns_iff_witness :
  is_Ok (update example_old example_new) ∧
  (is_Ok (get_domain example_old) ∧ is_Ok (get_domain example_new) ∧
   ∀ k, covers (example_new.*1) k = true →
        covers (example_old.*1) k = true) ∧
  regions_disjoint (example_overlapping.*1) = false ∧
  ¬ is_Ok (update example_old example_overlapping).
Proof.
  assert (is_Ok (update example_old example_new)) as Hu.
  { exists (updated_pairs example_old (example_new.*1) ++ example_new).
    vm_compute. reflexivity. }
  assert (regions_disjoint (example_overlapping.*1) = false) as Hov
    by (vm_compute; reflexivity).
  split; [exact Hu|].
  split; [exact (proj1 (proj1 (update_returns_iff example_old example_new))
                   Hu)|].
  split; [exact Hov|]. intros H.
  destruct (proj2 (update_returns_iff example_old example_overlapping) H)
    as [_ Hd].
  rewrite Hov in Hd. discriminate Hd.
Defined.

Lemma region_map_eq_is_equivalence_witness :
  region_map_eq example_split example_whole = Ok true ∧
  region_map_eq example_whole (reverse example_split) = Ok true ∧
  region_map_eq example_split (reverse example_split) = Ok true.
Proof.
  assert (region_map_eq example_split example_whole = Ok true) as H1
    by (vm_compute; reflexivity).
  assert (region_map_eq example_whole (reverse example_split) = Ok true)
    as H2 by (vm_compute; reflexivity).
  split; [exact H1|]. split; [exact H2|].
  exact (proj2 (region_map_eq_is_equivalence example_split example_whole
                  (reverse example_split)) H1 H2).
Defined.

Lemma mask_and_update_respect_equality_witness :
  region_map_eq example_split example_whole = Ok true ∧
  ∃ a a', mask (dummy_region ["b"; "c"]%string) example_split = Ok a ∧
          mask (dummy_region ["b"; "c"]%string) example_whole = Ok a' ∧
          region_map_eq a a' = Ok true.
Proof.
  assert (region_map_eq example_split example_whole = Ok true) as H1
    by (vm_compute; reflexivity).
  split; [exact H1|].
  exact (proj1 (mask_and_update_respect_equality example_split example_whole
                  example_new example_new (dummy_region ["b"; "c"]%string)
                  H1)).
Defined.

Lemma transform_commutes_with_mask_witness :
  get_domain example_new = Ok (dummy_region ["b"; "d"]%string) ∧
  ∃ t tm mm mt,
    region_map_transform example_new S = Ok t ∧
    mask (dummy_region ["b"; "c"]%string) t = Ok tm ∧
    mask (dummy_region ["b"; "c"]%string) example_new = Ok mm ∧
    region_map_transform mm S = Ok mt ∧ tm = mt.
Proof.
  assert (get_domain example_new = Ok (dummy_region ["b"; "d"]%string)) as Hm
    by (vm_compute; reflexivity).
  split; [exact Hm|].
  exact (transform_commutes_with_mask S example_new
           (dummy_region ["b"; "c"]%string) _ Hm).
Defined.

Lemma transform_maps_values_witness :
  get_domain example_new = Ok (dummy_region ["b"; "d"]%string) ∧
  ∃ t, region_map_transform example_new S = Ok t ∧
       get_domain t = Ok (dummy_region ["b"; "d"]%string) ∧
       t.*1 = example_new.*1 ∧
       (∀ k, value_at t k = S <$> value_at example_new k) ∧
       (∀ n, region_map_eq example_new n = Ok true →
             ∃ t', region_map_transform n S = Ok t' ∧
                   region_map_eq t t' = Ok true).
Proof.
  assert (get_domain example_new = Ok (dummy_region ["b"; "d"]%string)) as Hm
    by (vm_compute; reflexivity).
  split; [exact Hm|].
  exact (transform_maps_values S example_new _ Hm).
Defined.

Lemma nested_subviews_collapse_witness :
  region_is_superset (get_region example_store) example_subregion = true ∧
  region_is_superset example_subregion (dummy_region ["a"%string]) = true ∧
  ∃ v1 v12 v2,
    store_subview_t example_store example_subregion = Ok v1 ∧
    store_subview_t v1 (dummy_region ["a"%string]) = Ok v12 ∧
    store_subview_t example_store (dummy_region ["a"%string]) = Ok v2 ∧
    get_region v12 = get_region v2 ∧
    (∀ new, set_metainfo v12 new example_metainfo
            = set_metainfo v2 new example_metainfo) ∧
    (∀ pm pd, get_metainfo example_store example_metainfo = Ok pm →
       get_domain pm = Ok pd →
       ∃ g12 g2, get_metainfo v12 example_metainfo = Ok g12 ∧
                 get_metainfo v2 example_metainfo = Ok g2 ∧
                 region_map_eq g12 g2 = Ok true).
Proof.
  assert (region_is_superset (get_region example_store) example_subregion
          = true) as H1 by (vm_compute; reflexivity).
  assert (region_is_superset example_subregion (dummy_region ["a"%string])
          = true) as H2 by (vm_compute; reflexivity).
  split; [exact H1|]. split; [exact H2|].
  exact (nested_subviews_collapse example_store example_subregion
           (dummy_region ["a"%string]) example_metainfo H1 H2).
Defined.

Lemma subview_set_metainfo_guards_parent_witness :
  region_is_superset (get_region example_store) example_subregion = true ∧
  get_domain example_new_metainfo = Ok (dummy_region ["a"%string]) ∧
  region_is_superset example_subregion (dummy_region ["a"%string]) = true ∧
  region_is_superset (get_region example_store) (dummy_region ["a"%string])
  = true ∧
  set_metainfo (subview_of example_store example_subregion)
    example_new_metainfo example_metainfo
  = set_metainfo example_store example_new_metainfo example_metainfo.
Proof.
  assert (region_is_superset (get_region example_store) example_subregion
          = true) as H1 by (vm_compute; reflexivity).
  assert (get_domain example_new_metainfo = Ok (dummy_region ["a"%string]))
    as H2 by (vm_compute; reflexivity).
  assert (region_is_superset example_subregion (dummy_region ["a"%string])
          = true) as H3 by (vm_compute; reflexivity).
  split; [exact H1|]. split; [exact H2|]. split; [exact H3|].
  exact (proj1 (subview_set_metainfo_guards_parent example_store
                  example_subregion example_new_metainfo _ example_metainfo
                  H1 H2) H3).
Defined.

Lemma subview_data_guards_parent_witness :
  region_is_superset example_store_region example_subregion = true ∧
  get_domain example_new_metainfo = Ok (dummy_region ["a"%string]) ∧
  region_is_superset example_subregion (dummy_region ["a"%string]) = true ∧
  write (subview_data_of example_data_store example_subregion)
    example_new_metainfo example_new_metainfo 5 0 7
  = write example_data_store example_new_metainfo example_new_metainfo 5 0 7 ∧
  reset_data (subview_data_of example_data_store example_subregion)
    (dummy_region ["a"%string]) example_new_metainfo 7
  = reset_data example_data_store (dummy_region ["a"%string])
      example_new_metainfo 7.
Proof.
  assert (region_is_superset example_store_region example_subregion = true)
    as H1 by (vm_compute; reflexivity).
  assert (get_domain example_new_metainfo = Ok (dummy_region ["a"%string]))
    as H2 by (vm_compute; reflexivity).
  assert (region_is_superset example_subregion (dummy_region ["a"%string])
          = true) as H3 by (vm_compute; reflexivity).
  split; [exact H1|]. split; [exact H2|]. split; [exact H3|].
  pose proof (subview_data_guards_parent example_data_store
                example_subregion example_store_region H1)
    as (_ & _ & Hwrite & _ & Hreset & _).
  split.
  - exact (Hwrite example_new_metainfo example_new_metainfo _ _ 5 0 7
             H2 H3 H2 H3).
  - exact (Hreset (dummy_region ["a"%string]) example_new_metainfo _ 7
             H3 H2 H3).
Defined.

(** Through the subview over a and b: a write whose metainfos lie over a is
    the store's write, with the store's response and next state; one whose
    new metainfo lies over a to c, outside the subregion, fails the
    assertion and changes nothing. *)
Example subview_write_forwards_or_fails :
  write (subview_data_of example_data_store example_subregion)
    example_new_metainfo example_new_metainfo 5 0 7 = Ok (5, 8) ∧
  write (subview_data_of example_data_store example_subregion)
    example_new_metainfo example_metainfo 5 0 7 = Throw assertion_failure.
Proof. split; vm_compute; reflexivity. Qed.

Lemma render_as_json_injective_witness :
  (∀ k, k ∈ dummy_protocol_t.keys (dummy_region ["a"; "b"]%string)
            ∪ dummy_protocol_t.keys (dummy_region ["b"; "a"]%string) →
        json_adapter.has_char Ascii.zero k = false ∧
        json_adapter.has_char ","%char k = false) ∧
  json_adapter.render_as_json (dummy_region ["a"; "b"]%string)
  = json_adapter.render_as_json (dummy_region ["b"; "a"]%string) ∧
  dummy_region ["a"; "b"]%string = dummy_region ["b"; "a"]%string.
Proof.
  assert (∀ k, k ∈ dummy_protocol_t.keys (dummy_region ["a"; "b"]%string)
                   ∪ dummy_protocol_t.keys (dummy_region ["b"; "a"]%string) →
               json_adapter.has_char Ascii.zero k = false ∧
               json_adapter.has_char ","%char k = false) as Hk.
  { intros k Hin. unfold dummy_region in Hin. simpl in Hin.
    set_unfold in Hin. destruct Hin as [[->|[->|[]]]|[->|[->|[]]]];
      split; reflexivity. }
  assert (json_adapter.render_as_json (dummy_region ["a"; "b"]%string)
          = json_adapter.render_as_json (dummy_region ["b"; "a"]%string))
    as Hr by (vm_compute; reflexivity).
  split; [exact Hk|]. split; [exact Hr|].
  exact (render_as_json_injective _ _ Hk Hr).
Defined.
